(** * net-cpp: the curl-backed HTTP client (src/core/net/http/impl/curl/client.cpp)

    A shallow embedding of [Client::base64_encode], [Client::base64_decode]
    and of the four submission methods [head], [get], [post], [put].

    Conventions of the embedding:
    - a [std::string] is a [list byte]; its storage, as [c_str()] and [data()]
      expose it, is the characters followed by one NUL;
    - a [const char*] is a block of storage together with an offset into it;
    - C++ integers are [Z]; conversions that lose bits are written out
      ([to_unsigned_int], [char_of_int]);
    - a computation that may throw returns an [outcome];
    - where a theorem is about what a member function leaves behind, its
      body is a [statement] on the object [*this] and its local stream. *)

From Stdlib Require Import Strings.Byte Strings.String.
From Stdlib Require Import ZArith List Lia Bool.
Import ListNotations.

Local Open Scope Z_scope.

(** ** Outcomes of C++ computations *)

(** The codes of [boost::archive::iterators::dataflow_exception]. *)
Inductive dataflow_exception_code : Type :=
| invalid_6_bitcode
| invalid_base64_character
| invalid_xml_escape_sequence
| comparison_not_permitted
| invalid_conversion
| other_exception.

(** What can be thrown: the exception of the boost iterators, the two
    errors the spec names for configuration time, and whatever a callable
    supplied by the caller throws, by the name of its type and its
    [what()]. *)
Inductive exception : Type :=
| dataflow_exception (code : dataflow_exception_code)
| InvalidRequest
| CredentialResolutionFailed
| foreign_exception (type_name what : string).

(** [Undefined]: a read outside the storage of a string or of a table.
    [OutOfFuel]: the bound on the turns of a loop was reached; the theorems
    show that neither occurs in the two codec functions. *)
Inductive outcome (A : Type) : Type :=
| Returns (a : A)
| Throws (e : exception)
| Undefined
| OutOfFuel.

Arguments Returns {A} a.
Arguments Throws {A} e.
Arguments Undefined {A}.
Arguments OutOfFuel {A}.

Definition bind {A B : Type} (m : outcome A) (k : A -> outcome B) : outcome B :=
  match m with
  | Returns a => k a
  | Throws e => Throws e
  | Undefined => Undefined
  | OutOfFuel => OutOfFuel
  end.

Declare Scope outcome_scope.
Delimit Scope outcome_scope with outcome.
Notation "x <- m ;; k" := (bind m (fun x => k))
  (at level 61, m at next level, right associativity) : outcome_scope.
Notation "' p <- m ;; k" := (bind m (fun p => k))
  (at level 61, p pattern, m at next level, right associativity) : outcome_scope.
Local Open Scope outcome_scope.

(** ** Characters and integers of the platform

    The model is of an LP64 target: [std::size_t] has 64 bits and
    [unsigned int] has 32.  Whether plain [char] is signed differs between
    such targets (amd64: signed, arm64: unsigned), so it is a parameter. *)

Definition UINT_WIDTH : Z := 32.

(** [unsigned int x = v]: the value modulo 2^32. *)
Definition to_unsigned_int (v : Z) : Z := v mod 2 ^ UINT_WIDTH.

Definition byte_of_Z (z : Z) : byte :=
  match Byte.of_N (Z.to_N z) with
  | Some b => b
  | None => x00
  end.

Definition Z_of_byte (b : byte) : Z := Z.of_N (Byte.to_N b).

(** Narrowing conversion of an [int] to [char]: the low eight bits. *)
Definition char_of_int (z : Z) : byte := byte_of_Z (z mod 256).

Class Platform : Type := { char_is_signed : bool }.

(** Integral promotion of a [char] to [int]. *)
Definition int_of_char `{Platform} (c : byte) : Z :=
  let u := Z_of_byte c in
  if char_is_signed && (128 <=? u) then u - 256 else u.

Definition NUL : byte := x00.
Definition EQUALS_SIGN : byte := "=".

(** ** Storage and [const char*] *)

Record char_ptr : Type := mk_ptr {
  block : list byte;
  offset : nat
}.

(** [s.c_str()] and [s.data()]: the characters, then the terminating NUL. *)
Definition c_str (s : list byte) : char_ptr :=
  {| block := s ++ [NUL]; offset := 0 |}.

Definition data (s : list byte) : char_ptr := c_str s.

(** [p + n] *)
Definition ptr_add (p : char_ptr) (n : nat) : char_ptr :=
  {| block := block p; offset := (offset p + n)%nat |}.

(** ** Input iterators

    What [std::copy] asks of its source range.  [equal] returns the updated
    left operand as well: boost's [transform_width] records in it that the
    end of the input was seen. *)

Class InputIterator (I : Type) : Type := {
  equal : I -> I -> bool * I;
  dereference : I -> outcome (byte * I);
  increment : I -> I
}.

#[export] Instance char_ptr_iterator : InputIterator char_ptr := {|
  equal p q := (Nat.eqb (offset p) (offset q), p);
  dereference p :=
    match nth_error (block p) (offset p) with
    | Some c => Returns (c, p)
    | None => Undefined
    end;
  increment p := ptr_add p 1
|}.

(** [std::copy(first, last, std::ostream_iterator<char>(os))]: the characters
    written to [os], in order. *)
Fixpoint std_copy {I : Type} `{InputIterator I}
    (fuel : nat) (first last : I) : outcome (list byte) :=
  match fuel with
  | O => OutOfFuel
  | S fuel' =>
      let '(at_end, first) := equal first last in
      if at_end then Returns []
      else
        '(c, first) <- dereference first ;;
        rest <- std_copy fuel' (increment first) last ;;
        Returns (c :: rest)
  end.

(** ** boost::archive::iterators

    The Boost headers that client.cpp includes ([transform_width.hpp],
    [base64_from_binary.hpp], [binary_from_base64.hpp]) are not under src/.
    The spec calls the codec "standard RFC 4648 base64"; this section spells
    that out as the iterator adaptors the source composes, member by member
    as the headers have them. *)

(** Modelled from the spec: [boost::transform_iterator] (not under src/),
    the base of [base64_from_binary] and [binary_from_base64]: an iterator
    that applies [m_f] to what the underlying iterator yields. *)
Record transform_iterator (Base : Type) : Type := mk_transform_iterator {
  m_f : byte -> outcome byte;
  m_iterator : Base
}.

Arguments mk_transform_iterator {Base} m_f m_iterator.
Arguments m_f {Base} t.
Arguments m_iterator {Base} t.

#[export] Instance transform_iterator_iterator {Base : Type} `{InputIterator Base}
  : InputIterator (transform_iterator Base) := {|
  equal x y :=
    let '(r, b) := equal (m_iterator x) (m_iterator y) in
    (r, mk_transform_iterator (m_f x) b);
  dereference x :=
    '(c, b) <- dereference (m_iterator x) ;;
    v <- m_f x c ;;
    Returns (v, mk_transform_iterator (m_f x) b);
  increment x := mk_transform_iterator (m_f x) (increment (m_iterator x))
|}.

(** Modelled from the spec: the table of [from_6_bit] (not under src/), the
    alphabet of RFC 4648. *)
Definition from_6_bit_lookup_table : list byte :=
  Eval cbv in
    list_byte_of_string
      "ABCDEFGHIJKLMNOPQRSTUVWXYZabcdefghijklmnopqrstuvwxyz0123456789+/".

(** Modelled from the spec: [from_6_bit::operator()] (not under src/),
    [lookup_table[static_cast<size_t>(t)]] after [BOOST_ASSERT(t < 64)]. *)
Definition from_6_bit `{Platform} (t : byte) : outcome byte :=
  let i := int_of_char t in
  if (0 <=? i) && (i <? 64) then
    match nth_error from_6_bit_lookup_table (Z.to_nat i) with
    | Some c => Returns c
    | None => Undefined
    end
  else Undefined.

(** Modelled from the spec: the table of [to_6_bit] (not under src/), the
    inverse of the alphabet on the 128 ASCII characters, -1 elsewhere. *)
Definition to_6_bit_lookup_table : list Z :=
  [ -1;-1;-1;-1;-1;-1;-1;-1;-1;-1;-1;-1;-1;-1;-1;-1;
    -1;-1;-1;-1;-1;-1;-1;-1;-1;-1;-1;-1;-1;-1;-1;-1;
    -1;-1;-1;-1;-1;-1;-1;-1;-1;-1;-1;62;-1;-1;-1;63;
    52;53;54;55;56;57;58;59;60;61;-1;-1;-1; 0;-1;-1;
    -1; 0; 1; 2; 3; 4; 5; 6; 7; 8; 9;10;11;12;13;14;
    15;16;17;18;19;20;21;22;23;24;25;-1;-1;-1;-1;-1;
    -1;26;27;28;29;30;31;32;33;34;35;36;37;38;39;40;
    41;42;43;44;45;46;47;48;49;50;51;-1;-1;-1;-1;-1 ].

(** Modelled from the spec: [to_6_bit::operator()] (not under src/), the
    6-bit value of a base64 character; "=" is rendered as 0, every other
    character outside the alphabet throws. *)
Definition to_6_bit `{Platform} (t : byte) : outcome byte :=
  let u := to_unsigned_int (int_of_char t) in
  let value := if u <=? 127 then nth (Z.to_nat u) to_6_bit_lookup_table (-1) else -1 in
  if value =? -1 then Throws (dataflow_exception invalid_base64_character)
  else Returns (char_of_int value).

(** The constructors of the two translating iterators. *)
Definition base64_from_binary `{Platform} {Base : Type} (start : Base)
  : transform_iterator Base :=
  mk_transform_iterator from_6_bit start.

Definition binary_from_base64 `{Platform} {Base : Type} (start : Base)
  : transform_iterator Base :=
  mk_transform_iterator to_6_bit start.

(** Modelled from the spec: [transform_width<Base, BitsOut, BitsIn>] (not
    under src/): it regroups the [BitsIn]-bit elements of [Base], most
    significant bit first, into [BitsOut]-bit elements.  These are its data
    members and the underlying iterator. *)
Record transform_width (Base : Type) (BitsOut BitsIn : Z) : Type :=
  mk_transform_width {
  base_reference : Base;
  m_buffer_out_full : bool;
  m_buffer_out : byte;
  m_buffer_in : byte;
  m_remaining_bits : Z;
  m_end_of_sequence : bool
}.

Arguments mk_transform_width {Base BitsOut BitsIn}.
Arguments base_reference {Base BitsOut BitsIn} t.
Arguments m_buffer_out_full {Base BitsOut BitsIn} t.
Arguments m_buffer_out {Base BitsOut BitsIn} t.
Arguments m_buffer_in {Base BitsOut BitsIn} t.
Arguments m_remaining_bits {Base BitsOut BitsIn} t.
Arguments m_end_of_sequence {Base BitsOut BitsIn} t.

(** The constructor [transform_width(T start)]. *)
Definition transform_width_start {Base : Type} (BitsOut BitsIn : Z) (start : Base)
  : transform_width Base BitsOut BitsIn :=
  mk_transform_width start false x00 x00 0 false.

(** [base_value_type j = m_buffer_in >> (m_remaining_bits - i);
     j &= (1 << i) - 1;] *)
Definition extract_bits `{Platform} (buffer_in : byte) (remaining_bits i : Z) : byte :=
  let j := char_of_int (Z.shiftr (int_of_char buffer_in) (remaining_bits - i)) in
  char_of_int (Z.land (int_of_char j) (Z.shiftl 1 i - 1)).

(** [m_buffer_out <<= i; m_buffer_out |= j;] *)
Definition append_bits `{Platform} (buffer_out : byte) (i : Z) (j : byte) : byte :=
  let out := char_of_int (Z.shiftl (int_of_char buffer_out) i) in
  char_of_int (Z.lor (int_of_char out) (int_of_char j)).

Section TransformWidth.

Context `{Platform} {Base : Type} `{InputIterator Base} {BitsOut BitsIn : Z}.

Let this_t : Type := transform_width Base BitsOut BitsIn.

(** The [do { ... } while (0 < missing_bits)] loop of [fill]: when the
    input buffer is empty it is refilled, from the underlying iterator or,
    past the end of the sequence, with zero bits; then as many bits as are
    wanted and available move from the input buffer to the output. *)
Fixpoint fill_loop (fuel : nat) (missing_bits : Z) (it : this_t) : outcome this_t :=
  match fuel with
  | O => OutOfFuel
  | S fuel' =>
      it <- (if m_remaining_bits it =? 0 then
               if m_end_of_sequence it then
                 Returns (mk_transform_width (base_reference it)
                            (m_buffer_out_full it) (m_buffer_out it)
                            (char_of_int 0) missing_bits (m_end_of_sequence it))
               else
                 '(c, b) <- dereference (base_reference it) ;;
                 Returns (mk_transform_width (increment b)
                            (m_buffer_out_full it) (m_buffer_out it)
                            c BitsIn (m_end_of_sequence it))
             else Returns it) ;;
      let i := Z.min missing_bits (m_remaining_bits it) in
      let j := extract_bits (m_buffer_in it) (m_remaining_bits it) i in
      let it' := mk_transform_width (base_reference it)
                   (m_buffer_out_full it) (append_bits (m_buffer_out it) i j)
                   (m_buffer_in it) (m_remaining_bits it - i) (m_end_of_sequence it) in
      let missing_bits := missing_bits - i in
      if 0 <? missing_bits then fill_loop fuel' missing_bits it' else Returns it'
  end.

(** [fill()]: every turn of its loop moves at least one bit, so [BitsOut]
    turns are enough. *)
Definition fill (it : this_t) : outcome this_t :=
  it <- fill_loop (Z.to_nat BitsOut) BitsOut
          (mk_transform_width (base_reference it) (m_buffer_out_full it)
             (char_of_int 0) (m_buffer_in it) (m_remaining_bits it)
             (m_end_of_sequence it)) ;;
  Returns (mk_transform_width (base_reference it) true (m_buffer_out it)
             (m_buffer_in it) (m_remaining_bits it) (m_end_of_sequence it)).

(** [dereference()] *)
Definition transform_width_dereference (it : this_t) : outcome (byte * this_t) :=
  it <- (if m_buffer_out_full it then Returns it else fill it) ;;
  Returns (m_buffer_out it, it).

(** [equal_impl(rhs)]: when elements get narrower, the iterator at the end
    of the input is equal to [rhs] only once its buffered bits are used up,
    and it notes that the end was seen. *)
Definition equal_impl (it rhs : this_t) : bool * this_t :=
  let '(same, b) := equal (base_reference it) (base_reference rhs) in
  let it := mk_transform_width b (m_buffer_out_full it) (m_buffer_out it)
              (m_buffer_in it) (m_remaining_bits it) (m_end_of_sequence it) in
  if BitsIn <? BitsOut then (same, it)
  else if same then
    (m_remaining_bits it =? 0,
     mk_transform_width b (m_buffer_out_full it) (m_buffer_out it)
       (m_buffer_in it) (m_remaining_bits it) true)
  else (false, it).

(** [increment()] *)
Definition transform_width_increment (it : this_t) : this_t :=
  mk_transform_width (base_reference it) false (m_buffer_out it)
    (m_buffer_in it) (m_remaining_bits it) (m_end_of_sequence it).

#[export] Instance transform_width_iterator : InputIterator this_t := {|
  equal := equal_impl;
  dereference := transform_width_dereference;
  increment := transform_width_increment
|}.

End TransformWidth.

(** ** Client::base64_encode and Client::base64_decode *)

Definition BASE64_PADDING : list (list byte) :=
  Eval cbv in
    [ list_byte_of_string ""; list_byte_of_string "=="; list_byte_of_string "=" ].

Section Codec.

Context `{Platform}.

(** [bai::base64_from_binary<bai::transform_width<const char *, 6, 8> >] *)
Definition base64_enc (start : char_ptr)
  : transform_iterator (transform_width char_ptr 6 8) :=
  base64_from_binary (transform_width_start 6 8 start).

(** [bai::transform_width<bai::binary_from_base64<const char *>, 8, 6>] *)
Definition base64_dec (start : char_ptr)
  : transform_width (transform_iterator char_ptr) 8 6 :=
  transform_width_start 8 6 (binary_from_base64 start).

(** [s.size()] *)
Definition size (s : list byte) : Z := Z.of_nat (length s).

(** [Client::base64_encode] (client.cpp:51-66).  The copy loop turns once
    for each character it writes and once more to find the end: at most
    [2 * s.size() + 1] times. *)
Definition base64_encode (s : list byte) : outcome (list byte) :=
  os <- std_copy (S (2 * length s))
          (base64_enc (c_str s))
          (base64_enc (ptr_add (c_str s) (length s))) ;;
  Returns (os ++ nth (Z.to_nat (size s mod 3)) BASE64_PADDING []).

(** [s[i]] *)
Definition at_index (s : list byte) (i : Z) : byte := nth (Z.to_nat i) s NUL.

(** The first half of [Client::base64_decode] (client.cpp:74-82): the value
    of [unsigned int size] once the padding characters are removed. *)
Definition decode_size (s : list byte) : Z :=
  let size := to_unsigned_int (size s) in
  if negb (size =? 0) && Byte.eqb (at_index s (size - 1)) EQUALS_SIGN then
    let size := size - 1 in
    if negb (size =? 0) && Byte.eqb (at_index s (size - 1)) EQUALS_SIGN then
      size - 1
    else size
  else size.

(** [Client::base64_decode] (client.cpp:68-90).  Every turn of the copy
    loop reads at least one character and none can be read past the
    terminating NUL: at most [s.size() + 1] turns. *)
Definition base64_decode (s : list byte) : outcome (list byte) :=
  let size := decode_size s in
  if size =? 0 then Returns []
  else
    std_copy (S (length s))
      (base64_dec (data s))
      (base64_dec (ptr_add (data s) (Z.to_nat size))).

End Codec.

(** ** The submission methods: head, get, post, put *)

(** Modelled from the spec: [core::net::http::Method] (method.h is not
    under src/), "method (HEAD/GET/POST/PUT)". *)
Inductive Method : Type := Method_head | Method_get | Method_post | Method_put.

(** Modelled from the spec: the constants [curl::easy::disable],
    [curl::easy::enable] and [curl::easy::enable_ssl_host_verification]
    (curl.h is not under src/), the values client.cpp passes to
    [set_option] to turn a check off or on. *)
Inductive long_value : Type :=
| disable
| enable
| enable_ssl_host_verification.

(** Modelled from the spec: the members of [curl::Option] and
    [curl::multi::Option] that client.cpp names (curl.h is not under src/). *)
Inductive curl_option : Type :=
| ssl_verify_host
| ssl_verify_peer
| pipelining.

Definition curl_option_eqb (a b : curl_option) : bool :=
  match a, b with
  | ssl_verify_host, ssl_verify_host => true
  | ssl_verify_peer, ssl_verify_peer => true
  | pipelining, pipelining => true
  | _, _ => false
  end.

(** Modelled from the spec: [http::Header] (not under src/), the "header
    mapping (key→value, insertion order preserved for wire emission)". *)
Definition Header : Type := list (list byte * list byte).

(** Modelled from the spec: the credentials an authentication handler
    yields (request.h is not under src/), "a username/password pair". *)
Record Credentials : Type := mk_Credentials {
  username : list byte;
  password : list byte
}.

(** Modelled from the spec: [Configuration::ssl] (request.h is not under
    src/), the "TLS policy {verify_peer: bool, verify_host: bool}". *)
Record Ssl : Type := mk_Ssl {
  verify_peer : bool;
  verify_host : bool
}.

(** Modelled from the spec: [Configuration::authentication_handler]
    (request.h is not under src/), the "optional authentication resolver".
    [for_http] is a [std::function]: empty ([None]), or a callable that
    returns credentials or throws. *)
Record AuthenticationHandler : Type := mk_AuthenticationHandler {
  for_http : option (list byte -> outcome Credentials)
}.

(** Modelled from the spec: [http::Request::Configuration] (request.h is
    not under src/), with the members client.cpp reads: "target URI
    (string), header mapping, TLS policy, optional authentication
    resolver". *)
Record Configuration : Type := mk_Configuration {
  uri : list byte;
  header : Header;
  ssl : Ssl;
  authentication_handler : AuthenticationHandler
}.

(** Modelled from the spec: the default-constructed [Configuration]
    (core/net/http/request.h is not under src/).  "Default (when the
    Configuration default-constructs) is verify-on for both peer and host";
    no URL, no headers, no authentication handler. *)
Definition default_Configuration : Configuration :=
  {| uri := [];
     header := [];
     ssl := {| verify_peer := true; verify_host := true |};
     authentication_handler := {| for_http := None |} |}.

(** The characters of [l] before its first NUL. *)
Fixpoint until_NUL (l : list byte) : list byte :=
  match l with
  | [] => []
  | c :: l' => if Byte.eqb c NUL then [] else c :: until_NUL l'
  end.

(** The C string that a [const char*] points to. *)
Definition c_string_at (p : char_ptr) : list byte :=
  until_NUL (skipn (offset p) (block p)).

(** [std::istream], as [readsome] sees it: the characters that are
    available without blocking ([rdbuf()->in_avail()]). *)
Record istream : Type := mk_istream {
  get_area : list byte
}.

Definition STREAMSIZE_WIDTH : Z := 64.

(** Conversion of a [std::size_t] to the signed [std::streamsize]. *)
Definition to_streamsize (v : Z) : Z :=
  let u := v mod 2 ^ STREAMSIZE_WIDTH in
  if u <? 2 ^ (STREAMSIZE_WIDTH - 1) then u else u - 2 ^ STREAMSIZE_WIDTH.

(** [payload.readsome(dest, n)]: extracts up to [n] of the available
    characters; the pair is what was stored at [dest] and the stream
    afterwards. *)
Definition readsome (payload : istream) (n : Z) : list byte * istream :=
  let k := Z.to_nat (Z.max 0 n) in
  (firstn k (get_area payload), {| get_area := skipn k (get_area payload) |}).

(** More characters become available to read. *)
Definition arrive (more : list byte) (payload : istream) : istream :=
  {| get_area := get_area payload ++ more |}.

(** One invocation of a read callback: the characters it stored at [dest],
    the count it returned, and the payload stream afterwards. *)
Record read_result : Type := mk_read_result {
  stored : list byte;
  returned : Z;
  payload_after : istream
}.

(** The type of the callable given to [on_read_data]: the captured stream
    is passed explicitly; [in_size * nmemb] is the capacity of [dest]. *)
Definition ReadCallback : Type := istream -> Z -> Z -> read_result.

(** Modelled from the spec: [curl::easy::Handle] (curl.h is not under src/).
    A Transfer Handle holds "method, URL, headers, TLS policy, optional
    request body source, optional streamed-read body producer", and the
    credentials attached "for transport-level authentication". *)
Record Handle : Type := mk_Handle {
  handle_method : option Method;
  handle_url : option (list byte);
  handle_header : Header;
  handle_post_data : option (list byte * list byte);
  handle_on_read_data : option (ReadCallback * Z);
  handle_options : curl_option -> option long_value;
  handle_http_credentials : option (list byte * list byte)
}.

(** [::curl::easy::Handle handle;] *)
Definition new_Handle : Handle :=
  mk_Handle None None [] None None (fun _ => None) None.

(** Modelled from the spec: [Handle::method] (curl.h is not under src/);
    like the setters below it records its argument in the handle. *)
Definition Handle_method (m : Method) (h : Handle) : outcome Handle :=
  Returns (mk_Handle (Some m) (handle_url h) (handle_header h)
             (handle_post_data h) (handle_on_read_data h)
             (handle_options h) (handle_http_credentials h)).

(** Modelled from the spec: which URLs are malformed is not said, so the
    test is a parameter of the model. *)
Class UrlSyntax : Type := { well_formed : list byte -> bool }.

(** Modelled from the spec: [Handle::url] (curl.h is not under src/).
    "Input config must have a non-empty URL; malformed URL fails with
    InvalidRequest".  The URL arrives as a [const char*], so it is the C
    string found there. *)
Definition Handle_url `{UrlSyntax} (url : char_ptr) (h : Handle) : outcome Handle :=
  let u := c_string_at url in
  match u with
  | [] => Throws InvalidRequest
  | _ :: _ =>
      if well_formed u then
        Returns (mk_Handle (handle_method h) (Some u) (handle_header h)
                   (handle_post_data h) (handle_on_read_data h)
                   (handle_options h) (handle_http_credentials h))
      else Throws InvalidRequest
  end.

(** Modelled from the spec: [Handle::header] (curl.h is not under src/). *)
Definition Handle_header (hd : Header) (h : Handle) : outcome Handle :=
  Returns (mk_Handle (handle_method h) (handle_url h) hd
             (handle_post_data h) (handle_on_read_data h)
             (handle_options h) (handle_http_credentials h)).

(** Modelled from the spec: [Handle::post_data] (curl.h is not under
    src/).  The body is "a complete in-memory body plus its content-type
    header"; the body arrives as a [const char*] without a length, so it is
    the C string found there. *)
Definition Handle_post_data (body : char_ptr) (ct : list byte) (h : Handle)
  : outcome Handle :=
  Returns (mk_Handle (handle_method h) (handle_url h) (handle_header h)
             (Some (c_string_at body, ct)) (handle_on_read_data h)
             (handle_options h) (handle_http_credentials h)).

(** Modelled from the spec: [Handle::on_read_data] (curl.h is not under
    src/): the "streaming read callback + declared size". *)
Definition Handle_on_read_data (cb : ReadCallback) (size : Z) (h : Handle)
  : outcome Handle :=
  Returns (mk_Handle (handle_method h) (handle_url h) (handle_header h)
             (handle_post_data h) (Some (cb, size))
             (handle_options h) (handle_http_credentials h)).

(** Modelled from the spec: [Handle::set_option] (curl.h is not under
    src/): the last value set for an option is the one the handle has. *)
Definition Handle_set_option (o : curl_option) (v : long_value) (h : Handle)
  : outcome Handle :=
  Returns (mk_Handle (handle_method h) (handle_url h) (handle_header h)
             (handle_post_data h) (handle_on_read_data h)
             (fun o' => if curl_option_eqb o' o then Some v else handle_options h o')
             (handle_http_credentials h)).

(** Modelled from the spec: [Handle::http_credentials] (curl.h is not
    under src/): the credentials "are attached to the handle for
    transport-level authentication". *)
Definition Handle_http_credentials (user pass : list byte) (h : Handle)
  : outcome Handle :=
  Returns (mk_Handle (handle_method h) (handle_url h) (handle_header h)
             (handle_post_data h) (handle_on_read_data h)
             (handle_options h) (Some (user, pass))).

(** Modelled from the spec: the Request Facade (request.h is not under
    src/): "a single-assignment future: starts pending, transitions exactly
    once to completed(response) or failed(error)". *)
Inductive RequestState : Type :=
| pending
| completed
| failed (e : exception).

(** Modelled from the spec: [http::impl::curl::Request] (request.h is not
    under src/): the handle it was constructed with, and its state. *)
Record Request : Type := mk_Request {
  request_handle : Handle;
  request_state : RequestState
}.

(** Modelled from the spec: the Multiplexer ([curl::multi::Handle], curl.h
    is not under src/): the "set of active TransferHandles", the pipelining
    option, and the network I/O its run loop has performed so far. *)
Record Multi : Type := mk_Multi {
  multi_options : curl_option -> option long_value;
  active_handles : list Handle;
  network_io : list Handle
}.

(** Modelled from the spec: [multi.set_option] (curl.h is not under src/). *)
Definition Multi_set_option (o : curl_option) (v : long_value) (m : Multi) : Multi :=
  mk_Multi (fun o' => if curl_option_eqb o' o then Some v else multi_options m o')
    (active_handles m) (network_io m).

(** [http::impl::curl::Client]: its one data member. *)
Record Client : Type := mk_Client {
  multi : Multi
}.

(** [Client::Client()] *)
Definition new_Client : Client :=
  {| multi := Multi_set_option pipelining enable (mk_Multi (fun _ => None) [] []) |}.

(** Modelled from the spec: [new http::impl::curl::Request{multi, handle}]
    (request.h is not under src/).  "On success, a new TransferHandle is
    registered with the Multiplexer and a fresh RequestFacade in pending
    state is returned. No network I/O occurs synchronously during this
    call". *)
Definition new_Request (m : Multi) (handle : Handle) : Request * Multi :=
  ({| request_handle := handle; request_state := pending |},
   mk_Multi (multi_options m) (active_handles m ++ [handle]) (network_io m)).



(** The last statement of each submission,
    [return std::shared_ptr<http::Request>{new Request{multi, handle}}],
    reached only when building the handle has not thrown: the outcome and
    the client afterwards. *)
Definition construct_Request (this : Client) (handle : outcome Handle)
  : outcome Request * Client :=
  match handle with
  | Returns h =>
      let '(r, m) := new_Request (multi this) h in (Returns r, {| multi := m |})
  | Throws e => (Throws e, this)
  | Undefined => (Undefined, this)
  | OutOfFuel => (OutOfFuel, this)
  end.

(** The block [if (configuration.authentication_handler.for_http) { ... }]. *)
Definition apply_authentication_handler (configuration : Configuration) (handle : Handle)
  : outcome Handle :=
  match for_http (authentication_handler configuration) with
  | Some handler =>
      credentials <- handler (uri configuration) ;;
      Handle_http_credentials (username credentials) (password credentials) handle
  | None => Returns handle
  end.

Section Submission.

Context `{UrlSyntax}.

(** [Client::head] (client.cpp:107-127).  Each of the four methods builds
    a handle statement by statement, any of which may throw, and ends in the
    construction of the request. *)
Definition head (this : Client) (configuration : Configuration)
  : outcome Request * Client :=
  construct_Request this (
    handle <- Handle_method Method_head new_Handle ;;
    handle <- Handle_url (c_str (uri configuration)) handle ;;
    handle <- Handle_header (header configuration) handle ;;
    handle <- Handle_set_option ssl_verify_host
                (if verify_host (ssl configuration)
                 then enable_ssl_host_verification else disable) handle ;;
    handle <- Handle_set_option ssl_verify_peer
                (if verify_peer (ssl configuration) then enable else disable) handle ;;
    apply_authentication_handler configuration handle).

(** [Client::get] (client.cpp:129-148) *)
Definition get (this : Client) (configuration : Configuration)
  : outcome Request * Client :=
  construct_Request this (
    handle <- Handle_method Method_get new_Handle ;;
    handle <- Handle_url (c_str (uri configuration)) handle ;;
    handle <- Handle_header (header configuration) handle ;;
    handle <- Handle_set_option ssl_verify_host
                (if verify_host (ssl configuration)
                 then enable_ssl_host_verification else disable) handle ;;
    handle <- Handle_set_option ssl_verify_peer
                (if verify_peer (ssl configuration) then enable else disable) handle ;;
    apply_authentication_handler configuration handle).

(** [Client::post] (client.cpp:150-173): [post_data] is given
    [payload.c_str()] and the content type. *)
Definition post (this : Client) (configuration : Configuration)
    (payload ct : list byte) : outcome Request * Client :=
  construct_Request this (
    handle <- Handle_method Method_post new_Handle ;;
    handle <- Handle_url (c_str (uri configuration)) handle ;;
    handle <- Handle_header (header configuration) handle ;;
    handle <- Handle_post_data (c_str payload) ct handle ;;
    handle <- Handle_set_option ssl_verify_host
                (if verify_host (ssl configuration)
                 then enable_ssl_host_verification else disable) handle ;;
    handle <- Handle_set_option ssl_verify_peer
                (if verify_peer (ssl configuration) then enable else disable) handle ;;
    apply_authentication_handler configuration handle).

(** The lambda [[&payload, size](void* dest, std::size_t, std::size_t)]
    of [put]: [payload.readsome(static_cast<char*>(dest), size)].  The
    stream is captured by reference: the callback runs on the stream as it
    is when the engine invokes it, so the stream is its first argument. *)
Definition put_read_lambda (size : Z) : ReadCallback :=
  fun payload _in_size _nmemb =>
    let '(chars, payload') := readsome payload (to_streamsize size) in
    {| stored := chars;
       returned := Z.of_nat (length chars);
       payload_after := payload' |}.

(** [Client::put] (client.cpp:175-202).  Of its argument [payload] only
    the reference is used, by the lambda; [size] is a [std::size_t]. *)
Definition put (this : Client) (configuration : Configuration)
    (size : Z) : outcome Request * Client :=
  construct_Request this (
    handle <- Handle_method Method_put new_Handle ;;
    handle <- Handle_url (c_str (uri configuration)) handle ;;
    handle <- Handle_header (header configuration) handle ;;
    handle <- Handle_on_read_data (put_read_lambda size) size handle ;;
    handle <- Handle_set_option ssl_verify_host
                (if verify_host (ssl configuration)
                 then enable_ssl_host_verification else disable) handle ;;
    handle <- Handle_set_option ssl_verify_peer
                (if verify_peer (ssl configuration) then enable else disable) handle ;;
    apply_authentication_handler configuration handle).

(** The four ways to submit a request. *)
Inductive submission : Type :=
| submit_head (configuration : Configuration)
| submit_get (configuration : Configuration)
| submit_post (configuration : Configuration) (payload ct : list byte)
| submit_put (configuration : Configuration) (size : Z).

(** The configuration a submission is made with. *)
Definition configuration_of (s : submission) : Configuration :=
  match s with
  | submit_head c | submit_get c | submit_post c _ _ | submit_put c _ => c
  end.

(** The call of the method a submission stands for. *)
Definition submit (this : Client) (s : submission) : outcome Request * Client :=
  match s with
  | submit_head c => head this c
  | submit_get c => get this c
  | submit_post c payload ct => post this c payload ct
  | submit_put c size => put this c size
  end.

End Submission.

(** ** The two codec functions, statement by statement

    [base64_encode] and [base64_decode] above give what the two member
    functions return.  Here their bodies are written as the statements of
    client.cpp, each acting on the state a member function of [Client] can
    reach: the object [*this] and the local [std::stringstream os]. *)

Record method_state : Type := mk_method_state {
  this_object : Client;
  os : list byte
}.

(** A statement: what it yields or throws, and the state it leaves. *)
Definition statement (A : Type) : Type := method_state -> outcome A * method_state.

Definition ret {A : Type} (a : A) : statement A := fun st => (Returns a, st).

Definition bind_statement {A B : Type} (m : statement A) (k : A -> statement B)
  : statement B :=
  fun st =>
    match m st with
    | (Returns a, st') => k a st'
    | (Throws e, st') => (Throws e, st')
    | (Undefined, st') => (Undefined, st')
    | (OutOfFuel, st') => (OutOfFuel, st')
    end.

Declare Scope statement_scope.
Delimit Scope statement_scope with statement.
Notation "x <- m ;; k" := (bind_statement m (fun x => k))
  (at level 61, m at next level, right associativity) : statement_scope.
Notation "' p <- m ;; k" := (bind_statement m (fun p => k))
  (at level 61, p pattern, m at next level, right associativity) : statement_scope.

(** An expression that touches neither the object nor the stream. *)
Definition expression {A : Type} (m : outcome A) : statement A := fun st => (m, st).

(** [os << c], as the assignment through [std::ostream_iterator<char>(os)]
    does it. *)
Definition os_put (c : byte) : statement unit :=
  fun st => (Returns tt, mk_method_state (this_object st) (os st ++ [c])).

(** [os << str] *)
Definition os_write (str : list byte) : statement unit :=
  fun st => (Returns tt, mk_method_state (this_object st) (os st ++ str)).

(** [os.str()] *)
Definition os_str : statement (list byte) := fun st => (Returns (os st), st).

(** [std::copy(first, last, std::ostream_iterator<char>(os))], one
    assignment to the stream for every element. *)
Fixpoint std_copy_to_os {I : Type} `{InputIterator I}
    (fuel : nat) (first last : I) : statement unit :=
  match fuel with
  | O => expression OutOfFuel
  | S fuel' =>
      let '(at_end, first) := equal first last in
      if at_end then ret tt
      else
        ('(c, first) <- expression (dereference first) ;;
         _ <- os_put c ;;
         std_copy_to_os fuel' (increment first) last)%statement
  end.

(** The body of [Client::base64_encode] (client.cpp:53-65). *)
Definition base64_encode_body `{Platform} (s : list byte) : statement (list byte) :=
  (_ <- std_copy_to_os (S (2 * length s))
          (base64_enc (c_str s))
          (base64_enc (ptr_add (c_str s) (length s))) ;;
   _ <- os_write (nth (Z.to_nat (size s mod 3)) BASE64_PADDING []) ;;
   os_str)%statement.

(** The body of [Client::base64_decode] (client.cpp:70-89). *)
Definition base64_decode_body `{Platform} (s : list byte) : statement (list byte) :=
  let size := decode_size s in
  if size =? 0 then ret []
  else
    (_ <- std_copy_to_os (S (length s))
            (base64_dec (data s))
            (base64_dec (ptr_add (data s) (Z.to_nat size))) ;;
     os_str)%statement.

(** A call of a member function on the object [this]: its body runs with a
    stream of its own, empty at first; the result and the object
    afterwards. *)
Definition call {A : Type} (body : statement A) (this : Client) : outcome A * Client :=
  let '(r, st) := body {| this_object := this; os := [] |} in
  (r, this_object st).

Definition Client_base64_encode `{Platform} (this : Client) (s : list byte)
  : outcome (list byte) * Client :=
  call (base64_encode_body s) this.

Definition Client_base64_decode `{Platform} (this : Client) (s : list byte)
  : outcome (list byte) * Client :=
  call (base64_decode_body s) this.

(** * Reference definitions

    What the theorems below compare the code with, and the views of the
    iterator states that the proofs use. *)

(** ** RFC 4648 base64

    Written from the spec's words, "standard RFC 4648 base64 with =
    padding", as section 4 of the RFC has it: three octets form a 24-bit
    group that is read as four 6-bit values, each the index of a character
    of the alphabet; a final group of one or two octets is completed with
    zero bits and padded with one "=" for each missing octet. *)

Definition rfc4648_alphabet : list byte :=
  Eval cbv in
    list_byte_of_string
      "ABCDEFGHIJKLMNOPQRSTUVWXYZabcdefghijklmnopqrstuvwxyz0123456789+/".

Definition rfc4648_char (v : Z) : byte := nth (Z.to_nat v) rfc4648_alphabet NUL.

Definition rfc4648_pad : byte := "=".

Fixpoint rfc4648_encode (s : list byte) : list byte :=
  match s with
  | [] => []
  | [b0] =>
      let n := Z_of_byte b0 * 2 ^ 16 in
      [rfc4648_char (n / 2 ^ 18); rfc4648_char (n / 2 ^ 12 mod 64);
       rfc4648_pad; rfc4648_pad]
  | [b0; b1] =>
      let n := Z_of_byte b0 * 2 ^ 16 + Z_of_byte b1 * 2 ^ 8 in
      [rfc4648_char (n / 2 ^ 18); rfc4648_char (n / 2 ^ 12 mod 64);
       rfc4648_char (n / 2 ^ 6 mod 64); rfc4648_pad]
  | b0 :: b1 :: b2 :: rest =>
      let n := Z_of_byte b0 * 2 ^ 16 + Z_of_byte b1 * 2 ^ 8 + Z_of_byte b2 in
      rfc4648_char (n / 2 ^ 18) :: rfc4648_char (n / 2 ^ 12 mod 64)
      :: rfc4648_char (n / 2 ^ 6 mod 64) :: rfc4648_char (n mod 64)
      :: rfc4648_encode rest
  end.

(** The four 6-bit values of the octets [b0 b1 b2], octet by octet. *)
Definition sextet0 (b0 : byte) : Z := Z_of_byte b0 / 4.
Definition sextet1 (b0 b1 : byte) : Z := Z_of_byte b0 mod 4 * 16 + Z_of_byte b1 / 16.
Definition sextet2 (b1 b2 : byte) : Z := Z_of_byte b1 mod 16 * 4 + Z_of_byte b2 / 64.
Definition sextet3 (b2 : byte) : Z := Z_of_byte b2 mod 64.

(** The characters that the range of [base64_enc] iterators yields for [s],
    before any padding is appended. *)
Fixpoint base64_chars (s : list byte) : list byte :=
  match s with
  | [] => []
  | [b0] => [rfc4648_char (sextet0 b0); rfc4648_char (sextet1 b0 x00)]
  | [b0; b1] =>
      [rfc4648_char (sextet0 b0); rfc4648_char (sextet1 b0 b1);
       rfc4648_char (sextet2 b1 x00)]
  | b0 :: b1 :: b2 :: rest =>
      rfc4648_char (sextet0 b0) :: rfc4648_char (sextet1 b0 b1)
      :: rfc4648_char (sextet2 b1 b2) :: rfc4648_char (sextet3 b2)
      :: base64_chars rest
  end.

(** The padding [base64_encode] appends: [BASE64_PADDING[s.size() % 3]]. *)
Definition padding_of (s : list byte) : list byte :=
  nth (Z.to_nat (size s mod 3)) BASE64_PADDING [].

(** Written from the spec's words: what is left of [s] once "up to two
    trailing = characters" are stripped. *)
Definition strip_padding (s : list byte) : list byte :=
  match rev s with
  | c :: r =>
      if Byte.eqb c EQUALS_SIGN then
        match r with
        | d :: r' => if Byte.eqb d EQUALS_SIGN then rev r' else rev r
        | [] => []
        end
      else s
  | [] => []
  end.

(** The part of [s] that its size covers once the size is held in an
    [unsigned int]: all of [s] when it is shorter than 2^32 characters. *)
Definition visible (s : list byte) : list byte :=
  firstn (Z.to_nat (to_unsigned_int (size s))) s.

(** An outcome of [base64_decode]: a string, or the exception that
    [binary_from_base64] throws. *)
Definition decodes_or_throws {A : Type} (r : outcome A) : Prop :=
  match r with
  | Returns _ => True
  | Throws e => e = dataflow_exception invalid_base64_character
  | Undefined => False
  | OutOfFuel => False
  end.

(** An input of 3 * 2^30 octets; its encoding has 2^32 characters. *)
Definition three_GiB_of_zeros : list byte := repeat x00 (Z.to_nat (3 * 2 ^ 30)).

(** A text of 2^32 + 1 characters: "=", then 2^32 times "A". *)
Definition pad_then_4GiB_of_A : list byte :=
  EQUALS_SIGN :: repeat "A"%byte (Z.to_nat (2 ^ 32)).

(** ** The text that [base64_decode] reads

    What the decoding iterators compute from the characters that are left
    once the padding is removed, as a recursion on groups of four
    characters: each character stands for six bits, four characters for
    three octets; a last group of two or three characters gives one or two
    octets and its unused bits are dropped; a last group of one character
    gives no octet and cannot be decoded. *)

(** The position of [c] in [l]. *)
Fixpoint index_of (c : byte) (l : list byte) : option Z :=
  match l with
  | [] => None
  | x :: l' => if Byte.eqb c x then Some 0 else option_map Z.succ (index_of c l')
  end.

(** The six bits a character stands for: its index in the alphabet; "=",
    where it is not removed as padding, stands for 0, as "A" does. *)
Definition base64_value (c : byte) : option Z :=
  if Byte.eqb c rfc4648_pad then Some 0 else index_of c rfc4648_alphabet.

Definition invalid_character {A : Type} : outcome A :=
  Throws (dataflow_exception invalid_base64_character).

Definition value_of (c : byte) : outcome Z :=
  match base64_value c with
  | Some v => Returns v
  | None => invalid_character
  end.

(** The 24-bit group of four 6-bit values, and its three octets. *)
Definition group24 (v0 v1 v2 v3 : Z) : Z :=
  v0 * 2 ^ 18 + v1 * 2 ^ 12 + v2 * 2 ^ 6 + v3.

Definition octets_of_group (n : Z) : list byte :=
  [byte_of_Z (n / 2 ^ 16); byte_of_Z (n / 2 ^ 8 mod 256); byte_of_Z (n mod 256)].

Fixpoint decode_text (t : list byte) : outcome (list byte) :=
  match t with
  | [] => Returns []
  | [_] => invalid_character
  | [c0; c1] =>
      v0 <- value_of c0 ;; v1 <- value_of c1 ;;
      Returns (firstn 1 (octets_of_group (group24 v0 v1 0 0)))
  | [c0; c1; c2] =>
      v0 <- value_of c0 ;; v1 <- value_of c1 ;; v2 <- value_of c2 ;;
      Returns (firstn 2 (octets_of_group (group24 v0 v1 v2 0)))
  | c0 :: c1 :: c2 :: c3 :: rest =>
      v0 <- value_of c0 ;; v1 <- value_of c1 ;; v2 <- value_of c2 ;;
      v3 <- value_of c3 ;;
      octets <- decode_text rest ;;
      Returns (octets_of_group (group24 v0 v1 v2 v3) ++ octets)
  end.

Definition is_base64_character (c : byte) : bool :=
  match base64_value c with
  | Some _ => true
  | None => false
  end.

(** A text that [decode_text] decodes: its characters stand for six bits
    each, and it does not end in a group of one character. *)
Definition decodable (t : list byte) : bool :=
  forallb is_base64_character t && negb (Nat.eqb (length t mod 4) 1).

(** ** States of the two iterators

    The encoding iterator and the decoding iterator over the storage [blk],
    with the underlying pointer at offset [p]. *)

Definition encoder_width (blk : list byte) (p : nat) (full : bool)
    (out buf : byte) (rem : Z) (eos : bool) : transform_width char_ptr 6 8 :=
  mk_transform_width (mk_ptr blk p) full out buf rem eos.

Definition encoder_at `{Platform} (blk : list byte) (p : nat)
    (out buf : byte) (rem : Z) (eos : bool)
  : transform_iterator (transform_width char_ptr 6 8) :=
  mk_transform_iterator from_6_bit (encoder_width blk p false out buf rem eos).

Definition decoder_at `{Platform} (blk : list byte) (p : nat) (full : bool)
    (out buf : byte) (rem : Z) (eos : bool)
  : transform_width (transform_iterator char_ptr) 8 6 :=
  mk_transform_width (mk_transform_iterator to_6_bit (mk_ptr blk p))
    full out buf rem eos.

(** The [i] bits of [z] below bit position [r]. *)
Definition bits (z r i : Z) : Z := (z / 2 ^ (r - i)) mod 2 ^ i.

(** The pairs (remaining bits, bits taken) that [fill] meets when it
    regroups 8-bit into 6-bit elements or back. *)
Definition widths_used : list (Z * Z) :=
  [ (8, 6); (2, 2); (8, 4); (4, 4); (8, 2); (6, 6); (6, 2); (6, 4) ].

(** ** Exhaustive checks

    Facts about single characters are checked on all 256 of them, on both
    kinds of platform. *)

Definition forall_bool (f : bool -> bool) : bool := f true && f false.

Definition forall_byte (p : byte -> bool) : bool :=
  forall_bool (fun b0 => forall_bool (fun b1 => forall_bool (fun b2 =>
  forall_bool (fun b3 => forall_bool (fun b4 => forall_bool (fun b5 =>
  forall_bool (fun b6 => forall_bool (fun b7 =>
    p (Byte.of_bits (b0, (b1, (b2, (b3, (b4, (b5, (b6, b7)))))))))))))))).

Definition forall_platform (p : Platform -> bool) : bool :=
  forall_bool (fun sg => p {| char_is_signed := sg |}).

(** [forall_below n p]: [p] holds of 0, ..., n-1. *)
Fixpoint forall_below (n : nat) (p : Z -> bool) : bool :=
  match n with
  | O => true
  | S n' => p (Z.of_nat n') && forall_below n' p
  end.

Definition outcome_byte_eqb (x y : outcome byte) : bool :=
  match x, y with
  | Returns a, Returns b => Byte.eqb a b
  | _, _ => false
  end.

(** [append_bits] on [i] more bits is [x * 2^i + y], checked for every [x]
    and [y] that fit. *)
Definition append_bits_ok `{Platform} (i : Z) : bool :=
  forall_below (Z.to_nat (2 ^ (8 - i))) (fun x =>
    forall_below (Z.to_nat (2 ^ i)) (fun y =>
      Byte.eqb (append_bits (byte_of_Z x) i (byte_of_Z y))
        (byte_of_Z (x * 2 ^ i + y)))).

(** [to_6_bit] returns a value or throws its exception, and it throws on
    NUL. *)
Definition to_6_bit_ok `{Platform} (c : byte) : bool :=
  match to_6_bit c with
  | Returns _ => negb (Byte.eqb c NUL)
  | Throws (dataflow_exception invalid_base64_character) => true
  | _ => false
  end.

(** [to_6_bit] and [base64_value] agree on [c]: the same six bits, or the
    exception and no value; and NUL has no value. *)
Definition to_6_bit_value_ok `{Platform} (c : byte) : bool :=
  match to_6_bit c, base64_value c with
  | Returns w, Some v =>
      Byte.eqb w (byte_of_Z v) && (0 <=? v) && (v <? 64) && negb (Byte.eqb c NUL)
  | Throws (dataflow_exception invalid_base64_character), None => true
  | _, _ => false
  end.

(** ** Submissions *)

(** The URL the engine is given: [configuration.uri.c_str()]. *)
Definition url_of (configuration : Configuration) : list byte :=
  c_string_at (c_str (uri configuration)).


(** The handle of a submission when the authentication block is reached. *)
Definition configured_handle (s : submission) : Handle :=
  let c := configuration_of s in
  mk_Handle
    (Some match s with
          | submit_head _ => Method_head
          | submit_get _ => Method_get
          | submit_post _ _ _ => Method_post
          | submit_put _ _ => Method_put
          end)
    (Some (url_of c))
    (header c)
    match s with
    | submit_post _ payload ct => Some (c_string_at (c_str payload), ct)
    | _ => None
    end
    match s with
    | submit_put _ size => Some (put_read_lambda size, size)
    | _ => None
    end
    (fun o =>
       if curl_option_eqb o ssl_verify_peer then
         Some (if verify_peer (ssl c) then enable else disable)
       else if curl_option_eqb o ssl_verify_host then
         Some (if verify_host (ssl c) then enable_ssl_host_verification else disable)
       else None)
    None.

(** The method a submission sets on its handle. *)
Definition method_of (s : submission) : Method :=
  match s with
  | submit_head _ => Method_head
  | submit_get _ => Method_get
  | submit_post _ _ _ => Method_post
  | submit_put _ _ => Method_put
  end.

(** ** Concrete inputs for the examples *)

#[local] Instance any_url : UrlSyntax := {| well_formed := fun _ => true |}.

Definition amd64 : Platform := {| char_is_signed := true |}.

Definition example_uri : list byte :=
  Eval cbv in list_byte_of_string "http://example/secure".

Definition example_configuration : Configuration :=
  {| uri := example_uri;
     header := [];
     ssl := {| verify_peer := false; verify_host := true |};
     authentication_handler := {| for_http := None |} |}.

Definition secret : list byte := Eval cbv in list_byte_of_string "secret".

Definition refusing_handler : list byte -> outcome Credentials :=
  fun _ => Throws (foreign_exception "std::runtime_error" "no credentials").

Definition granting_handler : list byte -> outcome Credentials :=
  fun url => Returns {| username := url; password := secret |}.

Definition with_handler (h : list byte -> outcome Credentials) : Configuration :=
  {| uri := example_uri;
     header := [];
     ssl := {| verify_peer := true; verify_host := true |};
     authentication_handler := {| for_http := Some h |} |}.

Definition payload_with_NUL : list byte := ["a"%byte; NUL; "b"%byte].









Definition text_plain : list byte := Eval cbv in list_byte_of_string "text/plain".

Definition six_available : istream :=
  {| get_area := ["a"; "b"; "c"; "d"; "e"; "f"]%byte |}.

Definition two_available : istream := {| get_area := ["a"; "b"]%byte |}.

(** * Proofs *)

(** ** Exhaustive checks over characters and small ranges *)

Lemma forall_bool_spec f : forall_bool f = true -> forall b, f b = true.
Proof.
  unfold forall_bool. intros H b. apply andb_prop in H. destruct H, b; assumption.
Qed.

Lemma forall_byte_spec p : forall_byte p = true -> forall b, p b = true.
Proof.
  intros H b. rewrite <- (Byte.of_bits_to_bits b).
  destruct (Byte.to_bits b) as [b0 [b1 [b2 [b3 [b4 [b5 [b6 b7]]]]]]].
  unfold forall_byte in H.
  apply (forall_bool_spec _) with (b := b0) in H.
  apply (forall_bool_spec _) with (b := b1) in H.
  apply (forall_bool_spec _) with (b := b2) in H.
  apply (forall_bool_spec _) with (b := b3) in H.
  apply (forall_bool_spec _) with (b := b4) in H.
  apply (forall_bool_spec _) with (b := b5) in H.
  apply (forall_bool_spec _) with (b := b6) in H.
  apply (forall_bool_spec _) with (b := b7) in H.
  exact H.
Qed.

Lemma forall_platform_spec p : forall_platform p = true -> forall P, p P = true.
Proof. intros H [sg]. exact (forall_bool_spec _ H sg). Qed.

Lemma forall_below_spec n p :
  forall_below n p = true -> forall z, 0 <= z < Z.of_nat n -> p z = true.
Proof.
  induction n as [|n IH]; intros H z Hz; [lia|].
  cbn [forall_below] in H. apply andb_prop in H. destruct H as [H1 H2].
  destruct (Z.eq_dec z (Z.of_nat n)) as [->|Hne]; [assumption|].
  apply IH; [assumption|lia].
Qed.

Lemma byte_eqb_eq a b : Byte.eqb a b = true -> a = b.
Proof. apply Byte.byte_dec_bl. Qed.

Lemma outcome_byte_eqb_eq x y : outcome_byte_eqb x y = true -> x = y.
Proof.
  destruct x, y; simpl; try discriminate.
  intros H; apply byte_eqb_eq in H; congruence.
Qed.

(** ** Characters and bits *)

Lemma Z_of_byte_range b : 0 <= Z_of_byte b < 256.
Proof.
  unfold Z_of_byte. pose proof (Byte.to_N_bounded b). lia.
Qed.

Lemma Z_of_byte_of_Z z : 0 <= z < 256 -> Z_of_byte (byte_of_Z z) = z.
Proof.
  intros Hz. unfold Z_of_byte, byte_of_Z.
  destruct (Byte.of_N (Z.to_N z)) as [b|] eqn:E.
  - apply Byte.to_of_N in E. rewrite E. lia.
  - apply Byte.of_N_None_iff in E. lia.
Qed.

Lemma byte_of_Z_of_byte b : byte_of_Z (Z_of_byte b) = b.
Proof.
  unfold Z_of_byte, byte_of_Z. rewrite N2Z.id, Byte.of_to_N. reflexivity.
Qed.

(** The two steps of [fill], as arithmetic. *)
Lemma extract_bits_spec `{P : Platform} b r i :
  In (r, i) widths_used ->
  extract_bits b r i = byte_of_Z (bits (Z_of_byte b) r i).
Proof.
  intros Hin.
  assert (H : forallb (fun ri => Byte.eqb (extract_bits b (fst ri) (snd ri))
                         (byte_of_Z (bits (Z_of_byte b) (fst ri) (snd ri))))
                widths_used = true).
  { revert b. apply forall_byte_spec. revert P. apply forall_platform_spec.
    vm_compute. reflexivity. }
  rewrite forallb_forall in H. apply byte_eqb_eq. exact (H _ Hin).
Qed.

Lemma append_bits_spec `{P : Platform} x i y :
  In i [2; 4; 6] -> 0 <= x < 2 ^ (8 - i) -> 0 <= y < 2 ^ i ->
  append_bits (byte_of_Z x) i (byte_of_Z y) = byte_of_Z (x * 2 ^ i + y).
Proof.
  intros Hi Hx Hy.
  assert (H : forallb append_bits_ok [2; 4; 6] = true).
  { revert P. apply forall_platform_spec. vm_compute. reflexivity. }
  rewrite forallb_forall in H. specialize (H i Hi). unfold append_bits_ok in H.
  assert (Hr : 0 <= i <= 8) by (cbn in Hi; lia).
  apply byte_eqb_eq.
  eapply forall_below_spec in H;
    [|rewrite Z2Nat.id by (apply Z.pow_nonneg; lia); exact Hx].
  eapply forall_below_spec in H;
    [|rewrite Z2Nat.id by (apply Z.pow_nonneg; lia); exact Hy].
  exact H.
Qed.

(** The two tables are inverse to each other on the 64 values. *)
Lemma from_6_bit_spec `{P : Platform} v :
  0 <= v < 64 -> from_6_bit (byte_of_Z v) = Returns (rfc4648_char v).
Proof.
  intros Hv. apply outcome_byte_eqb_eq.
  revert v Hv. apply (forall_below_spec 64). revert P. apply forall_platform_spec.
  vm_compute. reflexivity.
Qed.

Lemma to_6_bit_spec `{P : Platform} v :
  0 <= v < 64 -> to_6_bit (rfc4648_char v) = Returns (byte_of_Z v).
Proof.
  intros Hv. apply outcome_byte_eqb_eq.
  revert v Hv. apply (forall_below_spec 64). revert P. apply forall_platform_spec.
  vm_compute. reflexivity.
Qed.

Lemma rfc4648_char_not_pad v :
  0 <= v < 64 -> Byte.eqb (rfc4648_char v) EQUALS_SIGN = false.
Proof.
  intros Hv.
  assert (H : negb (Byte.eqb (rfc4648_char v) EQUALS_SIGN) = true).
  { revert v Hv. apply (forall_below_spec 64). vm_compute. reflexivity. }
  destruct (Byte.eqb _ _); [discriminate|reflexivity].
Qed.

Lemma char_of_int_0 : char_of_int 0 = byte_of_Z 0.
Proof. reflexivity. Qed.

Lemma sextet0_range b : 0 <= sextet0 b < 64.
Proof.
  unfold sextet0. pose proof (Z_of_byte_range b). Z.div_mod_to_equations. lia.
Qed.

Lemma sextet1_range a b : 0 <= sextet1 a b < 64.
Proof.
  unfold sextet1. pose proof (Z_of_byte_range a). pose proof (Z_of_byte_range b).
  Z.div_mod_to_equations. lia.
Qed.

Lemma sextet2_range a b : 0 <= sextet2 a b < 64.
Proof.
  unfold sextet2. pose proof (Z_of_byte_range a). pose proof (Z_of_byte_range b).
  Z.div_mod_to_equations. lia.
Qed.

Lemma sextet3_range b : 0 <= sextet3 b < 64.
Proof.
  unfold sextet3. pose proof (Z_of_byte_range b). Z.div_mod_to_equations. lia.
Qed.

(** ** Lists and storage *)

Lemma list_ind3 {A} (Q : list A -> Prop) :
  Q [] -> (forall a, Q [a]) -> (forall a b, Q [a; b]) ->
  (forall a b c l, Q l -> Q (a :: b :: c :: l)) ->
  forall l, Q l.
Proof.
  intros H0 H1 H2 H3.
  fix IH 1. intros [|a [|b [|c l]]].
  - exact H0.
  - apply H1.
  - apply H2.
  - apply H3, IH.
Qed.

Lemma nth_error_skipn_plus {A} (l : list A) p k :
  nth_error l (p + k) = nth_error (skipn p l) k.
Proof.
  revert l. induction p as [|p IH]; intros [|x l]; cbn; try reflexivity.
  - destruct k; reflexivity.
  - apply IH.
Qed.

Lemma read_at {A} (blk : list A) p q k l :
  skipn p blk = l -> q = (p + k)%nat -> nth_error blk q = nth_error l k.
Proof. intros <- ->. apply nth_error_skipn_plus. Qed.

(** ** Tactics *)

Ltac in_list := cbn; tauto.

Ltac sextet_range :=
  first [ apply sextet0_range | apply sextet1_range
        | apply sextet2_range | apply sextet3_range ].

(** Replaces the powers of two of the goal by their values. *)
Ltac pow_consts :=
  repeat match goal with
  | |- context [2 ^ ?e] =>
      let v := eval vm_compute in (2 ^ e) in change (2 ^ e) with v
  end.

(** Adds the range of every [Z_of_byte b] of the goal. *)
Ltac byte_ranges :=
  repeat match goal with
  | |- context [Z_of_byte ?b] =>
      lazymatch goal with
      | _ : 0 <= Z_of_byte b < 256 |- _ => fail
      | _ => pose proof (Z_of_byte_range b)
      end
  end.

(** Equations and bounds between quotients and remainders of octets. *)
Ltac solve_bits_eq :=
  unfold bits, sextet0, sextet1, sextet2, sextet3;
  change (Z_of_byte x00) with 0;
  rewrite ?Z_of_byte_of_Z by lia;
  byte_ranges; pow_consts; Z.div_mod_to_equations; lia.

(** Rewrites the bit operations of [fill] into arithmetic on [Z]. *)
Ltac bits_to_Z :=
  rewrite ?char_of_int_0;
  repeat (rewrite extract_bits_spec by in_list);
  repeat (rewrite append_bits_spec by first [ in_list | solve_bits_eq ]).

(** Closes a goal that states what one [dereference] returns. *)
Ltac finish_fill :=
  unfold ptr_add; cbn [offset block]; bits_to_Z;
  match goal with
  | |- Returns (byte_of_Z ?a, _) = Returns (byte_of_Z ?b, _) =>
      replace a with b by (symmetry; solve_bits_eq)
  end;
  reflexivity.

(** Settles the comparisons of offsets that the goal holds. *)
Ltac decide_eqb :=
  repeat match goal with
  | |- context [Nat.eqb ?a ?b] =>
      first [ replace (Nat.eqb a b) with false by (symmetry; apply Nat.eqb_neq; lia)
            | replace (Nat.eqb a b) with true by (symmetry; apply Nat.eqb_eq; lia) ]
  end.

(** From what the storage holds at [p], what it holds at the next offsets. *)
Ltac reads Hs :=
  match type of Hs with
  | skipn ?p ?blk = _ =>
      pose proof (read_at blk p p 0 _ Hs ltac:(lia));
      pose proof (read_at blk p (p + 1) 1 _ Hs ltac:(lia));
      pose proof (read_at blk p (p + 1 + 1) 2 _ Hs ltac:(lia));
      pose proof (read_at blk p (p + 1 + 1 + 1) 3 _ Hs ltac:(lia));
      cbn [nth_error app] in *
  end.

(** ** The encoding iterator

    One lemma for each state in which [dereference] finds the iterator,
    then the [std::copy] loop three octets at a time. *)

Section EncodingIterator.
Context `{P : Platform}.

Arguments extract_bits : simpl never.
Arguments append_bits : simpl never.
Arguments from_6_bit : simpl never.
Arguments char_of_int : simpl never.

Ltac run_fill Hr :=
  unfold transform_width_dereference, fill, encoder_width;
  change (Z.to_nat 6) with 6%nat; cbn; try (rewrite Hr; cbn).

Lemma enc_deref_0 blk p out buf b :
  nth_error blk p = Some b ->
  transform_width_dereference (encoder_width blk p false out buf 0 false)
  = Returns (byte_of_Z (sextet0 b), encoder_width blk (p + 1) true (byte_of_Z (sextet0 b)) b 2 false).
Proof. intros Hr. run_fill Hr. finish_fill. Qed.

Lemma enc_deref_2 blk p out buf b :
  nth_error blk p = Some b ->
  transform_width_dereference (encoder_width blk p false out buf 2 false)
  = Returns (byte_of_Z (sextet1 buf b),
             encoder_width blk (p + 1) true (byte_of_Z (sextet1 buf b)) b 4 false).
Proof. intros Hr. run_fill Hr. finish_fill. Qed.

Lemma enc_deref_4 blk p out buf b :
  nth_error blk p = Some b ->
  transform_width_dereference (encoder_width blk p false out buf 4 false)
  = Returns (byte_of_Z (sextet2 buf b),
             encoder_width blk (p + 1) true (byte_of_Z (sextet2 buf b)) b 6 false).
Proof. intros Hr. run_fill Hr. finish_fill. Qed.

Lemma enc_deref_6 blk p out buf eos :
  transform_width_dereference (encoder_width blk p false out buf 6 eos)
  = Returns (byte_of_Z (sextet3 buf),
             encoder_width blk p true (byte_of_Z (sextet3 buf)) buf 0 eos).
Proof. run_fill I. finish_fill. Qed.

Lemma enc_deref_2_eos blk p out buf :
  transform_width_dereference (encoder_width blk p false out buf 2 true)
  = Returns (byte_of_Z (sextet1 buf x00),
             encoder_width blk p true (byte_of_Z (sextet1 buf x00)) (byte_of_Z 0) 0 true).
Proof. run_fill I. finish_fill. Qed.

Lemma enc_deref_4_eos blk p out buf :
  transform_width_dereference (encoder_width blk p false out buf 4 true)
  = Returns (byte_of_Z (sextet2 buf x00),
             encoder_width blk p true (byte_of_Z (sextet2 buf x00)) (byte_of_Z 0) 0 true).
Proof. run_fill I. finish_fill. Qed.

(** One turn of the [std::copy] loop over the encoding iterator. *)
Lemma std_copy_enc_step fuel blk p last out buf rem eos :
  std_copy (S fuel) (encoder_at blk p out buf rem eos) (base64_enc (mk_ptr blk last))
  = if (Nat.eqb p last && (rem =? 0))%bool then Returns []
    else
      '(c, tw) <- transform_width_dereference
                    (encoder_width blk p false out buf rem (if Nat.eqb p last then true else eos)) ;;
      v <- from_6_bit c ;;
      rest <- std_copy fuel
                (mk_transform_iterator from_6_bit (transform_width_increment tw))
                (base64_enc (mk_ptr blk last)) ;;
      Returns (v :: rest).
Proof.
  cbn. destruct (Nat.eqb p last); cbn.
  - destruct (rem =? 0); cbn; [reflexivity|].
    destruct (transform_width_dereference _) as [[c tw]| | |]; cbn; try reflexivity.
    destruct (from_6_bit c); reflexivity.
  - destruct (transform_width_dereference _) as [[c tw]| | |]; cbn; try reflexivity.
    destruct (from_6_bit c); reflexivity.
Qed.

Lemma encoder_at_increment blk p full out buf rem eos :
  mk_transform_iterator from_6_bit
    (transform_width_increment (encoder_width blk p full out buf rem eos))
  = encoder_at blk p out buf rem eos.
Proof. reflexivity. Qed.

Ltac enc_turn :=
  rewrite std_copy_enc_step; decide_eqb; cbn [andb Z.eqb];
  rewrite ?andb_false_r;
  first [ rewrite enc_deref_6
        | rewrite enc_deref_2_eos
        | rewrite enc_deref_4_eos
        | erewrite enc_deref_0 by eassumption
        | erewrite enc_deref_2 by eassumption
        | erewrite enc_deref_4 by eassumption ];
  cbn [bind];
  rewrite from_6_bit_spec
    by first [ apply sextet0_range | apply sextet1_range
             | apply sextet2_range | apply sextet3_range ];
  cbn [bind]; rewrite encoder_at_increment.

Lemma enc_loop : forall l fuel blk p last out buf eos tl,
  skipn p blk = l ++ tl ->
  last = (p + length l)%nat ->
  (eos = true -> l = []) ->
  (2 * length l + 1 <= fuel)%nat ->
  std_copy fuel (encoder_at blk p out buf 0 eos) (base64_enc (mk_ptr blk last))
  = Returns (base64_chars l).
Proof.
  induction l as [|b0|b0 b1|b0 b1 b2 l IH] using list_ind3;
    intros fuel blk p last out buf eos tl Hs Hl He Hf; cbn [length] in *;
    try (destruct eos; [specialize (He eq_refl); discriminate|]).
  - destruct fuel as [|fuel]; [lia|].
    rewrite std_copy_enc_step. decide_eqb. reflexivity.
  - do 3 (destruct fuel as [|fuel]; [lia|]). reads Hs.
    enc_turn. enc_turn.
    rewrite std_copy_enc_step. decide_eqb. reflexivity.
  - do 4 (destruct fuel as [|fuel]; [lia|]). reads Hs.
    enc_turn. enc_turn. enc_turn.
    rewrite std_copy_enc_step. decide_eqb. reflexivity.
  - do 4 (destruct fuel as [|fuel]; [lia|]). reads Hs.
    enc_turn. enc_turn. enc_turn. enc_turn.
    erewrite IH with (tl := tl); [reflexivity| |lia| |lia].
    + replace (p + 1 + 1 + 1)%nat with (3 + p)%nat by lia.
      rewrite <- (skipn_skipn 3 p), Hs. reflexivity.
    + destruct (Nat.eqb_spec (p + 1 + 1 + 1) last) as [E|E]; [|discriminate].
      intros _. destruct l; [reflexivity|cbn [length] in *; lia].
Qed.

End EncodingIterator.

(** ** The decoding iterator *)

Section DecodingIterator.
Context `{P : Platform}.

Arguments extract_bits : simpl never.
Arguments append_bits : simpl never.
Arguments to_6_bit : simpl never.
Arguments char_of_int : simpl never.
Arguments Z.min _ _ : simpl nomatch.
Arguments Z.sub _ _ : simpl nomatch.
Arguments Z.add _ _ : simpl nomatch.
Arguments Z.opp _ : simpl nomatch.
Arguments Z.ltb _ _ : simpl nomatch.
Arguments Z.eqb _ _ : simpl nomatch.

Arguments fill_loop : simpl never.
Arguments rfc4648_char : simpl never.

Lemma fill_loop_unfold {Base : Type} `{InputIterator Base} {BitsOut BitsIn : Z}
    fuel missing_bits (it : transform_width Base BitsOut BitsIn) :
  fill_loop (S fuel) missing_bits it
  = (it <- (if m_remaining_bits it =? 0 then
               if m_end_of_sequence it then
                 Returns (mk_transform_width (base_reference it)
                            (m_buffer_out_full it) (m_buffer_out it)
                            (char_of_int 0) missing_bits (m_end_of_sequence it))
               else
                 '(c, b) <- dereference (base_reference it) ;;
                 Returns (mk_transform_width (increment b)
                            (m_buffer_out_full it) (m_buffer_out it)
                            c BitsIn (m_end_of_sequence it))
             else Returns it) ;;
      let i := Z.min missing_bits (m_remaining_bits it) in
      let j := extract_bits (m_buffer_in it) (m_remaining_bits it) i in
      let it' := mk_transform_width (base_reference it)
                   (m_buffer_out_full it) (append_bits (m_buffer_out it) i j)
                   (m_buffer_in it) (m_remaining_bits it - i) (m_end_of_sequence it) in
      let missing_bits := missing_bits - i in
      if 0 <? missing_bits then fill_loop fuel missing_bits it' else Returns it').
Proof. reflexivity. Qed.

Ltac run_fill_dec :=
  unfold transform_width_dereference, fill, decoder_at;
  change (Z.to_nat 8) with 8%nat; cbn;
  repeat (rewrite fill_loop_unfold; cbn;
          repeat match goal with
          | H : nth_error ?blk ?p = Some _ |- context [nth_error ?blk ?p] =>
              rewrite H; cbn; rewrite to_6_bit_spec by assumption; cbn
          end).

Lemma dec_deref_0 blk p out buf v0 v1 :
  nth_error blk p = Some (rfc4648_char v0) ->
  nth_error blk (p + 1) = Some (rfc4648_char v1) ->
  0 <= v0 < 64 -> 0 <= v1 < 64 ->
  transform_width_dereference (decoder_at blk p false out buf 0 false)
  = Returns (byte_of_Z (v0 * 4 + v1 / 16),
             decoder_at blk (p + 1 + 1) true (byte_of_Z (v0 * 4 + v1 / 16)) (byte_of_Z v1) 4 false).
Proof. intros H0 H1 Hv0 Hv1. run_fill_dec. finish_fill. Qed.

Lemma dec_deref_4 blk p out v1 v2 :
  nth_error blk p = Some (rfc4648_char v2) ->
  0 <= v1 < 64 -> 0 <= v2 < 64 ->
  transform_width_dereference (decoder_at blk p false out (byte_of_Z v1) 4 false)
  = Returns (byte_of_Z (v1 mod 16 * 16 + v2 / 4),
             decoder_at blk (p + 1) true (byte_of_Z (v1 mod 16 * 16 + v2 / 4)) (byte_of_Z v2) 2 false).
Proof. intros H0 Hv1 Hv2. run_fill_dec. finish_fill. Qed.

Lemma dec_deref_2 blk p out v2 v3 :
  nth_error blk p = Some (rfc4648_char v3) ->
  0 <= v2 < 64 -> 0 <= v3 < 64 ->
  transform_width_dereference (decoder_at blk p false out (byte_of_Z v2) 2 false)
  = Returns (byte_of_Z (v2 mod 4 * 64 + v3),
             decoder_at blk (p + 1) true (byte_of_Z (v2 mod 4 * 64 + v3)) (byte_of_Z v3) 0 false).
Proof. intros H0 Hv2 Hv3. run_fill_dec. finish_fill. Qed.

Lemma std_copy_dec_step fuel blk p last out buf rem eos :
  std_copy (S fuel) (decoder_at blk p false out buf rem eos) (base64_dec (mk_ptr blk last))
  = if Nat.eqb p last then Returns []
    else
      '(c, tw) <- transform_width_dereference (decoder_at blk p false out buf rem eos) ;;
      rest <- std_copy fuel (transform_width_increment tw) (base64_dec (mk_ptr blk last)) ;;
      Returns (c :: rest).
Proof.
  cbn [std_copy equal transform_width_iterator]. unfold equal_impl.
  cbn -[std_copy transform_width_dereference].
  destruct (Nat.eqb p last); reflexivity.
Qed.

Lemma decoder_at_increment blk p full out buf rem eos :
  transform_width_increment (decoder_at blk p full out buf rem eos)
  = decoder_at blk p false out buf rem eos.
Proof. reflexivity. Qed.

Lemma octet0 b0 b1 : byte_of_Z (sextet0 b0 * 4 + sextet1 b0 b1 / 16) = b0.
Proof.
  rewrite <- (byte_of_Z_of_byte b0) at 3. f_equal. solve_bits_eq.
Qed.

Lemma octet1 b0 b1 b2 :
  byte_of_Z (sextet1 b0 b1 mod 16 * 16 + sextet2 b1 b2 / 4) = b1.
Proof.
  rewrite <- (byte_of_Z_of_byte b1) at 3. f_equal. solve_bits_eq.
Qed.

Lemma octet2 b1 b2 : byte_of_Z (sextet2 b1 b2 mod 4 * 64 + sextet3 b2) = b2.
Proof.
  rewrite <- (byte_of_Z_of_byte b2) at 3. f_equal. solve_bits_eq.
Qed.

Ltac dec_turn :=
  rewrite std_copy_dec_step; decide_eqb;
  first [ erewrite dec_deref_0 by first [ eassumption | sextet_range ]
        | erewrite dec_deref_4 by first [ eassumption | sextet_range ]
        | erewrite dec_deref_2 by first [ eassumption | sextet_range ] ];
  cbn [bind]; rewrite decoder_at_increment;
  rewrite ?octet0, ?octet1, ?octet2.

Lemma dec_loop : forall l fuel blk p last out buf tl,
  skipn p blk = base64_chars l ++ tl ->
  last = (p + length (base64_chars l))%nat ->
  (length (base64_chars l) + 1 <= fuel)%nat ->
  std_copy fuel (decoder_at blk p false out buf 0 false) (base64_dec (mk_ptr blk last))
  = Returns l.
Proof.
  induction l as [|b0|b0 b1|b0 b1 b2 l IH] using list_ind3;
    intros fuel blk p last out buf tl Hs Hl Hf; cbn [base64_chars length app] in *.
  - destruct fuel as [|fuel]; [lia|].
    rewrite std_copy_dec_step. decide_eqb. reflexivity.
  - do 2 (destruct fuel as [|fuel]; [lia|]). reads Hs.
    dec_turn.
    rewrite std_copy_dec_step. decide_eqb. reflexivity.
  - do 3 (destruct fuel as [|fuel]; [lia|]). reads Hs.
    dec_turn. dec_turn.
    rewrite std_copy_dec_step. decide_eqb. reflexivity.
  - do 3 (destruct fuel as [|fuel]; [lia|]). reads Hs.
    dec_turn. dec_turn. dec_turn.
    erewrite IH with (tl := tl); [reflexivity| |lia|lia].
    replace (p + 1 + 1 + 1 + 1)%nat with (4 + p)%nat by lia.
    rewrite <- (skipn_skipn 4 p), Hs. reflexivity.
Qed.

End DecodingIterator.

Lemma padding_of_group a b c l : padding_of (a :: b :: c :: l) = padding_of l.
Proof.
  unfold padding_of, size. cbn [length].
  replace (Z.of_nat (S (S (S (length l))))) with (Z.of_nat (length l) + 1 * 3) by lia.
  rewrite Z.mod_add by lia. reflexivity.
Qed.

Lemma rfc4648_encode_chars s : rfc4648_encode s = base64_chars s ++ padding_of s.
Proof.
  induction s as [|b0|b0 b1|b0 b1 b2 l IH] using list_ind3.
  - reflexivity.
  - cbn [rfc4648_encode base64_chars app]. change (padding_of [b0]) with [rfc4648_pad; rfc4648_pad].
    cbn [app]. repeat f_equal; solve_bits_eq.
  - cbn [rfc4648_encode base64_chars app]. change (padding_of [b0; b1]) with [rfc4648_pad].
    cbn [app]. repeat f_equal; solve_bits_eq.
  - cbn [rfc4648_encode base64_chars app]. rewrite padding_of_group, IH.
    repeat f_equal; solve_bits_eq.
Qed.

Section CodecLemmas.
Context `{P : Platform}.

Lemma base64_encode_chars s :
  base64_encode s = Returns (base64_chars s ++ padding_of s).
Proof.
  unfold base64_encode.
  change (base64_enc (c_str s)) with (encoder_at (s ++ [NUL]) 0 x00 x00 0 false).
  change (base64_enc (ptr_add (c_str s) (length s)))
    with (base64_enc (mk_ptr (s ++ [NUL]) (0 + length s))).
  rewrite (enc_loop s _ _ 0 _ _ _ _ [NUL]); [reflexivity|reflexivity|reflexivity|discriminate|lia].
Qed.

Lemma at_index_app (l r : list byte) x :
  at_index (l ++ x :: r) (Z.of_nat (length l)) = x.
Proof.
  unfold at_index. rewrite Nat2Z.id, app_nth2, Nat.sub_diag by lia. reflexivity.
Qed.

Lemma at_index_last (l : list byte) x :
  at_index (l ++ [x]) (size (l ++ [x]) - 1) = x.
Proof.
  unfold size. rewrite length_app. cbn [length].
  replace (Z.of_nat (length l + 1) - 1) with (Z.of_nat (length l)) by lia.
  apply at_index_app.
Qed.

(** A non-empty input is encoded to a non-empty text, and the last character
    before the padding is a character of the alphabet. *)
Lemma base64_chars_last s :
  s <> [] -> exists body v, 0 <= v < 64 /\ base64_chars s = body ++ [rfc4648_char v].
Proof.
  induction s as [|b0|b0 b1|b0 b1 b2 l IH] using list_ind3; intros Hne.
  - congruence.
  - exists [rfc4648_char (sextet0 b0)], (sextet1 b0 x00).
    split; [apply sextet1_range|reflexivity].
  - exists [rfc4648_char (sextet0 b0); rfc4648_char (sextet1 b0 b1)], (sextet2 b1 x00).
    split; [apply sextet2_range|reflexivity].
  - destruct l as [|x l'].
    + exists [rfc4648_char (sextet0 b0); rfc4648_char (sextet1 b0 b1);
              rfc4648_char (sextet2 b1 b2)], (sextet3 b2).
      split; [apply sextet3_range|reflexivity].
    + destruct IH as (body & v & Hv & E); [discriminate|].
      exists (rfc4648_char (sextet0 b0) :: rfc4648_char (sextet1 b0 b1)
              :: rfc4648_char (sextet2 b1 b2) :: rfc4648_char (sextet3 b2) :: body), v.
      split; [assumption|]. cbn [base64_chars app] in *. rewrite E. reflexivity.
Qed.

Lemma padding_of_cases s :
  (padding_of s = [] /\ size s mod 3 = 0)
  \/ (padding_of s = [EQUALS_SIGN; EQUALS_SIGN] /\ size s mod 3 = 1)
  \/ (padding_of s = [EQUALS_SIGN] /\ size s mod 3 = 2).
Proof.
  unfold padding_of.
  assert (H : 0 <= size s mod 3 < 3) by (apply Z.mod_pos_bound; lia).
  destruct (Z.eq_dec (size s mod 3) 0) as [E|?]; [rewrite E; auto|].
  destruct (Z.eq_dec (size s mod 3) 1) as [E|?]; [rewrite E; auto|].
  assert (E : size s mod 3 = 2) by lia. rewrite E; auto.
Qed.

Lemma size_app (l r : list byte) : size (l ++ r) = size l + size r.
Proof. unfold size. rewrite length_app. lia. Qed.

Lemma size_nonneg (l : list byte) : 0 <= size l.
Proof. unfold size. lia. Qed.

Lemma to_unsigned_int_small v : 0 <= v < 2 ^ 32 -> to_unsigned_int v = v.
Proof. intros Hv. unfold to_unsigned_int, UINT_WIDTH. apply Z.mod_small. exact Hv. Qed.

Lemma at_index_app1 (l r : list byte) i :
  0 <= i < size l -> at_index (l ++ r) i = at_index l i.
Proof.
  intros Hi. unfold at_index, size in *. apply app_nth1. lia.
Qed.

(** [decode_size] on a string that ends in [c], by its last characters. *)
Lemma decode_size_snoc (t : list byte) c :
  size (t ++ [c]) < 2 ^ 32 ->
  decode_size (t ++ [c])
  = if Byte.eqb c EQUALS_SIGN then
      match rev t with
      | d :: _ => if Byte.eqb d EQUALS_SIGN then size t - 1 else size t
      | [] => size t
      end
    else size t + 1.
Proof.
  intros Hlt. unfold decode_size.
  rewrite to_unsigned_int_small by (split; [apply size_nonneg|exact Hlt]).
  rewrite at_index_last.
  assert (Hs : size (t ++ [c]) = size t + 1) by (rewrite size_app; reflexivity).
  pose proof (size_nonneg t) as Hn.
  replace (size (t ++ [c]) =? 0) with false by (symmetry; apply Z.eqb_neq; lia).
  cbn [negb andb]. destruct (Byte.eqb c EQUALS_SIGN); [|exact Hs].
  replace (size (t ++ [c]) - 1) with (size t) by lia.
  destruct (rev t) as [|d r] eqn:E.
  - apply (f_equal (@rev byte)) in E. rewrite rev_involutive in E. subst t. reflexivity.
  - apply (f_equal (@rev byte)) in E. rewrite rev_involutive in E. cbn [rev] in E.
    subst t. set (u := rev r) in *.
    assert (Hu : size (u ++ [d]) = size u + 1) by (rewrite size_app; reflexivity).
    pose proof (size_nonneg u).
    replace (size (u ++ [d]) =? 0) with false by (symmetry; apply Z.eqb_neq; lia).
    cbn [negb andb].
    rewrite at_index_app1 by lia. rewrite at_index_last. reflexivity.
Qed.

Lemma decode_size_strip_padding s :
  size s < 2 ^ 32 -> decode_size s = size (strip_padding s).
Proof.
  intros Hlt. unfold strip_padding.
  destruct (rev s) as [|c r] eqn:E.
  - apply (f_equal (@rev byte)) in E. rewrite rev_involutive in E. subst s. reflexivity.
  - apply (f_equal (@rev byte)) in E. rewrite rev_involutive in E. cbn [rev] in E.
    subst s. rewrite decode_size_snoc by assumption. rewrite rev_involutive.
    destruct (Byte.eqb c EQUALS_SIGN).
    + destruct r as [|d r']; [reflexivity|].
      cbn [rev]. rewrite size_app.
      destruct (Byte.eqb d EQUALS_SIGN); [|rewrite size_app; reflexivity].
      change (size [d]) with 1. lia.
    + rewrite size_app. reflexivity.
Qed.

Lemma rev_snoc {A} (l : list A) x : rev (l ++ [x]) = x :: rev l.
Proof. rewrite rev_app_distr. reflexivity. Qed.

Lemma strip_padding_encoded s :
  strip_padding (base64_chars s ++ padding_of s) = base64_chars s.
Proof.
  destruct s as [|b s'].
  { reflexivity. }
  destruct (base64_chars_last (b :: s')) as (body & v & Hv & E); [discriminate|].
  rewrite E. unfold strip_padding.
  destruct (padding_of_cases (b :: s')) as [[Hp _]|[[Hp _]|[Hp _]]]; rewrite Hp.
  - rewrite app_nil_r, rev_snoc, rfc4648_char_not_pad by assumption. reflexivity.
  - replace ((body ++ [rfc4648_char v]) ++ [EQUALS_SIGN; EQUALS_SIGN])
      with (((body ++ [rfc4648_char v]) ++ [EQUALS_SIGN]) ++ [EQUALS_SIGN])
      by (rewrite <- !app_assoc; reflexivity).
    rewrite !rev_snoc. cbn [Byte.eqb EQUALS_SIGN].
    change (Byte.eqb "=" "=") with true. cbn iota.
    rewrite <- rev_snoc, rev_involutive. reflexivity.
  - rewrite !rev_snoc. change (Byte.eqb EQUALS_SIGN EQUALS_SIGN) with true. cbn iota.
    rewrite rfc4648_char_not_pad by assumption.
    rewrite <- rev_snoc, rev_involutive. reflexivity.
Qed.

(** On the text of an encoding that fits 32 bits, the padding is what
    [base64_decode] removes. *)
Lemma decode_size_encoded s :
  size (base64_chars s ++ padding_of s) < 2 ^ 32 ->
  decode_size (base64_chars s ++ padding_of s) = size (base64_chars s).
Proof.
  intros Hlt. rewrite decode_size_strip_padding by assumption.
  rewrite strip_padding_encoded. reflexivity.
Qed.

Lemma base64_chars_nil s : base64_chars s = [] -> s = [].
Proof. destruct s as [|a [|b [|c l]]]; cbn; congruence. Qed.

Lemma base64_decode_encoded s :
  size (base64_chars s ++ padding_of s) < 2 ^ 32 ->
  base64_decode (base64_chars s ++ padding_of s) = Returns s.
Proof.
  intros Hlt. unfold base64_decode. rewrite decode_size_encoded by assumption.
  destruct (size (base64_chars s) =? 0) eqn:E.
  - apply Z.eqb_eq in E. unfold size in E.
    destruct (base64_chars s) eqn:E'; [|cbn in E; lia].
    apply base64_chars_nil in E'. subst s. reflexivity.
  - set (e := base64_chars s ++ padding_of s).
    change (base64_dec (data e)) with (decoder_at (e ++ [NUL]) 0 false x00 x00 0 false).
    change (base64_dec (ptr_add (data e) (Z.to_nat (size (base64_chars s)))))
      with (base64_dec (mk_ptr (e ++ [NUL]) (0 + Z.to_nat (size (base64_chars s))))).
    apply (dec_loop s _ _ 0 _ _ _ (padding_of s ++ [NUL])).
    + unfold e. rewrite <- app_assoc. reflexivity.
    + unfold size. rewrite Nat2Z.id. reflexivity.
    + unfold e. rewrite length_app. lia.
Qed.

End CodecLemmas.

Lemma size_cons (x : byte) l : size (x :: l) = size l + 1.
Proof. unfold size. cbn [length]. lia. Qed.

(** The encoded text has four characters for every three octets begun. *)
Lemma size_encoded s : size (base64_chars s ++ padding_of s) = 4 * ((size s + 2) / 3).
Proof.
  induction s as [|b0|b0 b1|b0 b1 b2 l IH] using list_ind3.
  - reflexivity.
  - reflexivity.
  - reflexivity.
  - rewrite padding_of_group. cbn [base64_chars app].
    rewrite !size_cons, IH. pose proof (size_nonneg l).
    Z.div_mod_to_equations. lia.
Qed.

(** ** Round trip *)

Section Roundtrip.
Context `{P : Platform}.

(** Decoding the encoding of [s] returns [s], for every [s] whose encoding
    has fewer than 2^32 characters. *)
Theorem base64_roundtrip_bounded (s : list byte) :
  size s < 3 * 2 ^ 30 - 2 ->
  (e <- base64_encode s ;; base64_decode e) = Returns s.
Proof.
  intros Hs. rewrite base64_encode_chars. cbn [bind].
  apply base64_decode_encoded. rewrite size_encoded.
  pose proof (size_nonneg s). Z.div_mod_to_equations. lia.
Qed.

Lemma decode_size_wrapped s : size s mod 2 ^ 32 = 0 -> decode_size s = 0.
Proof.
  intros H. unfold decode_size, to_unsigned_int, UINT_WIDTH. rewrite H. reflexivity.
Qed.

Lemma base64_roundtrip_wraps s :
  size s = 3 * 2 ^ 30 ->
  (e <- base64_encode s ;; base64_decode e) = Returns [].
Proof.
  intros Hs. rewrite base64_encode_chars. cbn [bind].
  unfold base64_decode. rewrite decode_size_wrapped; [reflexivity|].
  rewrite size_encoded, Hs. reflexivity.
Qed.

Lemma size_three_GiB_of_zeros : size three_GiB_of_zeros = 3 * 2 ^ 30.
Proof.
  unfold size, three_GiB_of_zeros. rewrite repeat_length.
  apply Z2Nat.id. discriminate.
Qed.

(** C1 at an input of 3 * 2^30 octets: its encoding has 2^32 characters,
    the [unsigned int size] of [base64_decode] is 0, and decoding returns the
    empty string, not the input. *)
Theorem base64_roundtrip_fails_at_3GiB :
  (e <- base64_encode three_GiB_of_zeros ;; base64_decode e) = Returns []
  /\ three_GiB_of_zeros <> [].
Proof.
  split.
  - apply base64_roundtrip_wraps, size_three_GiB_of_zeros.
  - intros E. pose proof size_three_GiB_of_zeros as H. rewrite E in H. discriminate H.
Qed.

End Roundtrip.

Lemma base64_roundtrip_bounded_witness :
  (e <- @base64_encode amd64 [x00; xff; "a"%byte; "="%byte] ;; @base64_decode amd64 e)
  = Returns [x00; xff; "a"%byte; "="%byte].
Proof.
  apply (@base64_roundtrip_bounded amd64 [x00; xff; "a"%byte; "="%byte]).
  vm_compute. reflexivity.
Defined.

(** ** Every input is decoded or refused *)

Section Total.
Context `{P : Platform}.

Arguments extract_bits : simpl never.
Arguments append_bits : simpl never.
Arguments to_6_bit : simpl never.
Arguments char_of_int : simpl never.
Arguments fill_loop : simpl never.
Arguments Z.min _ _ : simpl nomatch.
Arguments Z.sub _ _ : simpl nomatch.
Arguments Z.add _ _ : simpl nomatch.
Arguments Z.opp _ : simpl nomatch.
Arguments Z.ltb _ _ : simpl nomatch.
Arguments Z.eqb _ _ : simpl nomatch.

Lemma to_6_bit_cases c :
  to_6_bit c = Throws (dataflow_exception invalid_base64_character)
  \/ (exists v, to_6_bit c = Returns v) /\ c <> NUL.
Proof.
  assert (H : to_6_bit_ok c = true).
  { revert c. apply forall_byte_spec. revert P. apply forall_platform_spec.
    vm_compute. reflexivity. }
  unfold to_6_bit_ok in H.
  destruct (to_6_bit c) as [v|e| |]; try discriminate H.
  - right. split; [exists v; reflexivity|].
    intros ->. discriminate H.
  - left. destruct e as [[]| | |]; try discriminate H. reflexivity.
Qed.

Lemma read_storage (s : list byte) p :
  (p <= length s)%nat ->
  exists c, nth_error (s ++ [NUL]) p = Some c /\ (c <> NUL -> (p < length s)%nat).
Proof.
  intros Hp. destruct (Nat.eq_dec p (length s)) as [->|Hne].
  - exists NUL. split; [|congruence].
    rewrite nth_error_app2, Nat.sub_diag by lia. reflexivity.
  - destruct (nth_error (s ++ [NUL]) p) as [c|] eqn:E.
    + exists c. split; [reflexivity|lia].
    + apply nth_error_None in E. rewrite length_app in E. cbn in E. lia.
Qed.

Ltac read_char s p :=
  let c := fresh "c" in let Hc := fresh "Hc" in let Hn := fresh "Hn" in
  let v := fresh "v" in let Hv := fresh "Hv" in let Hne := fresh "Hne" in
  destruct (read_storage s p ltac:(lia)) as (c & Hc & Hn);
  rewrite Hc; cbn;
  destruct (to_6_bit_cases c) as [Hv|[[v Hv] Hne]];
  rewrite Hv; cbn; [left; reflexivity|specialize (Hn Hne)].

Lemma dec_deref_cases s p out buf rem :
  (p <= length s)%nat -> rem = 0 \/ rem = 2 \/ rem = 4 ->
  transform_width_dereference (decoder_at (s ++ [NUL]) p false out buf rem false)
  = Throws (dataflow_exception invalid_base64_character)
  \/ exists o p' buf' rem',
       transform_width_dereference (decoder_at (s ++ [NUL]) p false out buf rem false)
       = Returns (o, decoder_at (s ++ [NUL]) p' true o buf' rem' false)
       /\ (p < p' <= length s)%nat /\ (rem' = 0 \/ rem' = 2 \/ rem' = 4).
Proof.
  intros Hp [->|[->| ->]];
    unfold transform_width_dereference, fill, decoder_at;
    change (Z.to_nat 8) with 8%nat; cbn; rewrite fill_loop_unfold; cbn.
  - read_char s p. rewrite fill_loop_unfold; cbn.
    read_char s (p + 1)%nat.
    right. do 4 eexists. split; [reflexivity|]. split; [unfold ptr_add; cbn [offset]; lia|]. right; right; reflexivity.
  - rewrite fill_loop_unfold; cbn. read_char s p.
    right. do 4 eexists. split; [reflexivity|]. split; [unfold ptr_add; cbn [offset]; lia|]. left; reflexivity.
  - rewrite fill_loop_unfold; cbn. read_char s p.
    right. do 4 eexists. split; [reflexivity|]. split; [unfold ptr_add; cbn [offset]; lia|]. right; left; reflexivity.
Qed.

Lemma dec_loop_total s last : forall fuel p out buf rem,
  (p <= length s)%nat -> rem = 0 \/ rem = 2 \/ rem = 4 ->
  (length s - p < fuel)%nat ->
  decodes_or_throws
    (std_copy fuel (decoder_at (s ++ [NUL]) p false out buf rem false)
       (base64_dec (mk_ptr (s ++ [NUL]) last))).
Proof.
  induction fuel as [|fuel IH]; intros p out buf rem Hp Hrem Hf; [lia|].
  rewrite std_copy_dec_step. destruct (Nat.eqb p last); [exact I|].
  destruct (dec_deref_cases s p out buf rem Hp Hrem) as [E|(o & p' & buf' & rem' & E & Hp' & Hrem')];
    rewrite E; cbn [bind]; [reflexivity|].
  rewrite decoder_at_increment.
  specialize (IH p' o buf' rem' ltac:(lia) Hrem' ltac:(lia)).
  destruct (std_copy fuel _ _); cbn [bind]; assumption.
Qed.

Lemma base64_decode_outcome (s : list byte) : decodes_or_throws (base64_decode s).
Proof.
  unfold base64_decode. destruct (decode_size s =? 0); [exact I|].
  change (base64_dec (data s)) with (decoder_at (s ++ [NUL]) 0 false x00 x00 0 false).
  apply dec_loop_total; [lia|left; reflexivity|lia].
Qed.

(** On every input [base64_decode] returns a string or throws the exception
    of [binary_from_base64]: it neither reads outside the storage of [s] nor
    needs more turns of the copy loop than [s] has characters. *)
Theorem base64_decode_total (s : list byte) :
  (exists out, base64_decode s = Returns out)
  \/ base64_decode s = Throws (dataflow_exception invalid_base64_character).
Proof.
  pose proof (base64_decode_outcome s) as H.
  destruct (base64_decode s) as [out|e| |]; cbn in H.
  - left. exists out. reflexivity.
  - right. rewrite H. reflexivity.
  - destruct H.
  - destruct H.
Qed.

End Total.

(** ** The claims on the codec *)

Lemma base64_chars_alphabet s : Forall (fun c => c <> EQUALS_SIGN) (base64_chars s).
Proof.
  assert (H : forall v, 0 <= v < 64 -> rfc4648_char v <> EQUALS_SIGN).
  { intros v Hv E. pose proof (rfc4648_char_not_pad v Hv) as H. rewrite E in H. discriminate H. }
  induction s as [|b0|b0 b1|b0 b1 b2 l IH] using list_ind3; cbn [base64_chars];
    repeat constructor; try (apply H; sextet_range); assumption.
Qed.

Lemma to_unsigned_int_range v : 0 <= to_unsigned_int v < 2 ^ 32.
Proof. unfold to_unsigned_int, UINT_WIDTH. apply Z.mod_pos_bound. reflexivity. Qed.

Lemma to_unsigned_int_le v : 0 <= v -> to_unsigned_int v <= v.
Proof. intros Hv. unfold to_unsigned_int, UINT_WIDTH. apply Z.mod_le; [assumption|reflexivity]. Qed.

Lemma size_visible s : size (visible s) = to_unsigned_int (size s).
Proof.
  unfold visible. pose proof (to_unsigned_int_range (size s)).
  pose proof (to_unsigned_int_le (size s) (size_nonneg s)).
  unfold size in *. rewrite length_firstn. lia.
Qed.

Lemma at_index_visible s i :
  0 <= i < to_unsigned_int (size s) -> at_index (visible s) i = at_index s i.
Proof.
  intros Hi. unfold at_index, visible.
  rewrite <- (firstn_skipn (Z.to_nat (to_unsigned_int (size s))) s) at 3.
  symmetry. apply app_nth1. rewrite length_firstn.
  pose proof (to_unsigned_int_le (size s) (size_nonneg s)). unfold size in *. lia.
Qed.

Lemma visible_small s : size s < 2 ^ 32 -> visible s = s.
Proof.
  intros H. unfold visible.
  rewrite to_unsigned_int_small by (split; [apply size_nonneg|assumption]).
  unfold size. rewrite Nat2Z.id. apply firstn_all.
Qed.

Lemma decode_size_visible s : decode_size s = decode_size (visible s).
Proof.
  unfold decode_size. rewrite size_visible.
  rewrite (to_unsigned_int_small (to_unsigned_int _)) by apply to_unsigned_int_range.
  set (n := to_unsigned_int (size s)). pose proof (to_unsigned_int_range (size s)) as Hn.
  fold n in Hn.
  destruct (n =? 0) eqn:E0; [reflexivity|]. apply Z.eqb_neq in E0. cbn [negb andb].
  rewrite at_index_visible by (fold n; lia).
  destruct (Byte.eqb (at_index s (n - 1)) EQUALS_SIGN); [|reflexivity].
  destruct (n - 1 =? 0) eqn:E1; [reflexivity|]. apply Z.eqb_neq in E1. cbn [negb andb].
  rewrite at_index_visible by (fold n; lia). reflexivity.
Qed.

Lemma strip_padding_nil_iff s :
  strip_padding s = [] <->
  s = [] \/ s = [EQUALS_SIGN] \/ s = [EQUALS_SIGN; EQUALS_SIGN].
Proof.
  split.
  - unfold strip_padding. intros H.
    destruct (rev s) as [|c r] eqn:E.
    + left. apply (f_equal (@rev byte)) in E. rewrite rev_involutive in E. exact E.
    + apply (f_equal (@rev byte)) in E. rewrite rev_involutive in E. cbn [rev] in E.
      destruct (Byte.eqb c EQUALS_SIGN) eqn:Ec.
      * apply byte_eqb_eq in Ec. subst c.
        destruct r as [|d r'].
        { right; left. exact E. }
        destruct (Byte.eqb d EQUALS_SIGN) eqn:Ed.
        { apply byte_eqb_eq in Ed. subst d.
          apply (f_equal (@rev byte)) in H. rewrite rev_involutive in H. subst r'.
          right; right. exact E. }
        { cbn [rev] in H. destruct (rev r'); discriminate H. }
      * subst s. destruct (rev r); discriminate H.
  - intros [->|[->| ->]]; reflexivity.
Qed.

Section CodecTheorems.
Context `{P : Platform}.

(** C5: [base64_encode s] is the RFC 4648 encoding of [s]: characters of
    the alphabet, none of them "=", followed by [BASE64_PADDING[n mod 3]],
    which is "", "==" or "=" as [n mod 3] is 0, 1 or 2.  The empty input
    gives the empty text, one octet gives two characters and "==", two
    octets give three characters and "=", three octets give four characters
    and no padding. *)
Theorem base64_encode_rfc4648 (s : list byte) :
  base64_encode s = Returns (rfc4648_encode s)
  /\ rfc4648_encode s = base64_chars s ++ nth (Z.to_nat (size s mod 3)) BASE64_PADDING []
  /\ Forall (fun c => c <> EQUALS_SIGN) (base64_chars s)
  /\ nth (Z.to_nat (size s mod 3)) BASE64_PADDING []
     = match size s mod 3 with
       | 0 => []
       | 1 => [EQUALS_SIGN; EQUALS_SIGN]
       | _ => [EQUALS_SIGN]
       end
  /\ base64_encode [] = Returns []
  /\ (forall b0, exists c0 c1,
        base64_encode [b0] = Returns [c0; c1; EQUALS_SIGN; EQUALS_SIGN]
        /\ c1 <> EQUALS_SIGN)
  /\ (forall b0 b1, exists c0 c1 c2,
        base64_encode [b0; b1] = Returns [c0; c1; c2; EQUALS_SIGN]
        /\ c2 <> EQUALS_SIGN)
  /\ (forall b0 b1 b2, exists c0 c1 c2 c3,
        base64_encode [b0; b1; b2] = Returns [c0; c1; c2; c3]
        /\ c3 <> EQUALS_SIGN).
Proof.
  assert (A : forall v, 0 <= v < 64 -> rfc4648_char v <> EQUALS_SIGN).
  { intros v Hv E. pose proof (rfc4648_char_not_pad v Hv) as H. rewrite E in H. discriminate H. }
  split; [|split; [|split; [|split; [|split; [|split; [|split]]]]]].
  - rewrite base64_encode_chars, rfc4648_encode_chars. reflexivity.
  - apply rfc4648_encode_chars.
  - apply base64_chars_alphabet.
  - destruct (padding_of_cases s) as [[Hp E]|[[Hp E]|[Hp E]]];
      unfold padding_of in Hp; rewrite Hp, E; reflexivity.
  - apply base64_encode_chars.
  - intros b0. do 2 eexists. rewrite base64_encode_chars. split; [reflexivity|].
    apply A, sextet1_range.
  - intros b0 b1. do 3 eexists. rewrite base64_encode_chars. split; [reflexivity|].
    apply A, sextet2_range.
  - intros b0 b1 b2. do 4 eexists. rewrite base64_encode_chars. split; [reflexivity|].
    apply A, sextet3_range.
Qed.

Lemma decode_size_inner_pad (t : list byte) :
  size t = 2 ^ 32 -> decode_size (EQUALS_SIGN :: t) = 0.
Proof.
  intros Ht. unfold decode_size. rewrite size_cons, Ht.
  change (to_unsigned_int (2 ^ 32 + 1)) with 1. reflexivity.
Qed.

Lemma strip_padding_keeps (t : list byte) c :
  Byte.eqb c EQUALS_SIGN = false -> strip_padding (t ++ [c]) = t ++ [c].
Proof.
  intros Hc. unfold strip_padding. rewrite rev_snoc, Hc. reflexivity.
Qed.

Lemma strip_padding_pad_then_repeat (n : nat) :
  strip_padding (EQUALS_SIGN :: repeat "A"%byte (S n))
  = EQUALS_SIGN :: repeat "A"%byte (S n).
Proof.
  replace (repeat "A"%byte (S n)) with (repeat "A"%byte n ++ ["A"%byte])
    by (symmetry; apply repeat_cons).
  rewrite app_comm_cons. apply strip_padding_keeps. reflexivity.
Qed.

Lemma size_repeat_4GiB : size (repeat "A"%byte (Z.to_nat (2 ^ 32))) = 2 ^ 32.
Proof.
  unfold size. rewrite repeat_length. apply Z2Nat.id. discriminate.
Qed.

(** C6 at a text of 2^32 + 1 characters, "=" and then 2^32 times "A": no
    "=" is at its end, so nothing is to be stripped and the text is not
    empty; the [unsigned int size] is 1, the "=" at the front is taken for
    padding, and [base64_decode] returns the empty string. *)
Theorem base64_decode_strips_leading_pad_at_4GiB :
  base64_decode pad_then_4GiB_of_A = Returns []
  /\ strip_padding pad_then_4GiB_of_A = pad_then_4GiB_of_A
  /\ size pad_then_4GiB_of_A = 2 ^ 32 + 1.
Proof.
  split; [|split].
  - unfold base64_decode, pad_then_4GiB_of_A.
    rewrite (decode_size_inner_pad _ size_repeat_4GiB). reflexivity.
  - unfold pad_then_4GiB_of_A.
    replace (Z.to_nat (2 ^ 32)) with (S (Z.to_nat (2 ^ 32 - 1))) by lia.
    apply strip_padding_pad_then_repeat.
  - unfold pad_then_4GiB_of_A. rewrite size_cons, size_repeat_4GiB. reflexivity.
Qed.

(** What [std::copy] into the stream leaves: the characters of the copy,
    after what the stream held; the object is not touched. *)
Lemma std_copy_to_os_spec {I : Type} `{InputIterator I} (fuel : nat) :
  forall (first last : I) (st : method_state),
    this_object (snd (std_copy_to_os fuel first last st)) = this_object st
    /\ match std_copy fuel first last with
       | Returns l =>
           std_copy_to_os fuel first last st
           = (Returns tt, mk_method_state (this_object st) (os st ++ l))
       | Throws e => fst (std_copy_to_os fuel first last st) = Throws e
       | Undefined => fst (std_copy_to_os fuel first last st) = Undefined
       | OutOfFuel => fst (std_copy_to_os fuel first last st) = OutOfFuel
       end.
Proof.
  induction fuel as [|fuel IH]; intros first last st.
  - split; reflexivity.
  - cbn [std_copy_to_os std_copy]. destruct (equal first last) as [at_end first'].
    destruct at_end.
    + split; [reflexivity|]. unfold ret. rewrite app_nil_r. destruct st; reflexivity.
    + destruct (dereference first') as [[c it]| | |]; cbn [bind];
        cbv beta iota delta [bind_statement expression os_put];
        try (split; reflexivity).
      destruct (IH (increment it) last
                  (mk_method_state (this_object st) (os st ++ [c]))) as [IH1 IH2].
      cbn [this_object os] in IH1, IH2. split; [exact IH1|].
      destruct (std_copy fuel (increment it) last) as [l| | |]; cbn [bind];
        try exact IH2.
      rewrite IH2, <- app_assoc. reflexivity.
Qed.

Lemma call_std_copy_to_os {I : Type} `{InputIterator I} (fuel : nat)
    (first last : I) (k : statement (list byte)) (this : Client)
    (after : list byte -> outcome (list byte)) :
  (forall l, fst (k (mk_method_state this l)) = after l
             /\ this_object (snd (k (mk_method_state this l))) = this) ->
  call (_ <- std_copy_to_os fuel first last ;; k)%statement this
  = (os <- std_copy fuel first last ;; after os, this).
Proof.
  intros Hk. unfold call, bind_statement.
  destruct (std_copy_to_os_spec fuel first last (mk_method_state this [])) as [H1 H2].
  cbn [this_object os app] in H1, H2.
  destruct (std_copy fuel first last) as [l| | |]; cbn [bind].
  - rewrite H2. destruct (Hk l) as [K1 K2].
    destruct (k (mk_method_state this l)) as [r st']. cbn [fst snd] in K1, K2.
    subst. reflexivity.
  - destruct (std_copy_to_os fuel first last _) as [r st'].
    cbn [fst snd] in H1, H2. subst. reflexivity.
  - destruct (std_copy_to_os fuel first last _) as [r st'].
    cbn [fst snd] in H1, H2. subst. reflexivity.
  - destruct (std_copy_to_os fuel first last _) as [r st'].
    cbn [fst snd] in H1, H2. subst. reflexivity.
Qed.

Lemma call_base64_encode_body (this : Client) (s : list byte) :
  call (base64_encode_body s) this = (base64_encode s, this).
Proof.
  unfold base64_encode_body, base64_encode.
  apply call_std_copy_to_os. intros l. split; reflexivity.
Qed.

Lemma call_base64_decode_body (this : Client) (s : list byte) :
  call (base64_decode_body s) this = (base64_decode s, this).
Proof.
  unfold base64_decode_body, base64_decode.
  destruct (decode_size s =? 0); [reflexivity|].
  rewrite (call_std_copy_to_os _ _ _ _ _ (fun l => Returns l))
    by (intros l; split; reflexivity).
  destruct (std_copy _ _ _); reflexivity.
Qed.

(** C10: run statement by statement on the object and a stream of their
    own, [base64_encode] and [base64_decode] give a result that is a
    function of the string alone, the same on every client and at every
    invocation, and leave the client as it was. *)
Theorem base64_codec_pure (this other : Client) (s : list byte) :
  Client_base64_encode this s = (base64_encode s, this)
  /\ Client_base64_decode this s = (base64_decode s, this)
  /\ fst (Client_base64_encode this s) = fst (Client_base64_encode other s)
  /\ fst (Client_base64_decode this s) = fst (Client_base64_decode other s)
  /\ snd (Client_base64_encode this s) = this
  /\ snd (Client_base64_decode this s) = this
  /\ fst (Client_base64_encode (snd (Client_base64_encode this s)) s)
     = fst (Client_base64_encode this s)
  /\ fst (Client_base64_decode (snd (Client_base64_decode this s)) s)
     = fst (Client_base64_decode this s).
Proof.
  unfold Client_base64_encode, Client_base64_decode.
  rewrite !call_base64_encode_body, !call_base64_decode_body.
  repeat split.
Qed.

End CodecTheorems.

(** ** The submission methods *)

Lemma until_NUL_app_NUL l r : until_NUL (l ++ NUL :: r) = until_NUL l.
Proof.
  induction l as [|c l IH]; cbn [until_NUL app].
  - reflexivity.
  - destruct (Byte.eqb c NUL); [reflexivity|]. rewrite IH. reflexivity.
Qed.

Lemma until_NUL_id l : ~ In NUL l -> until_NUL l = l.
Proof.
  induction l as [|c l IH]; intros Hn; cbn [until_NUL].
  - reflexivity.
  - destruct (Byte.eqb c NUL) eqn:E.
    + apply byte_eqb_eq in E. subst c. exfalso. apply Hn. left. reflexivity.
    + rewrite IH; [reflexivity|]. intros Hin. apply Hn. right. exact Hin.
Qed.

Lemma c_string_at_c_str l : c_string_at (c_str l) = until_NUL l.
Proof. unfold c_string_at, c_str. cbn [skipn offset block]. apply until_NUL_app_NUL. Qed.

Section SubmissionTheorems.
Context `{U : UrlSyntax}.

Lemma Handle_url_rejects url h :
  c_string_at url = [] \/ well_formed (c_string_at url) = false ->
  Handle_url url h = Throws InvalidRequest.
Proof.
  unfold Handle_url. intros [E|E].
  - rewrite E. reflexivity.
  - destruct (c_string_at url); [reflexivity|]. rewrite E. reflexivity.
Qed.

Lemma Handle_url_accepts url h :
  c_string_at url <> [] -> well_formed (c_string_at url) = true ->
  Handle_url url h
  = Returns (mk_Handle (handle_method h) (Some (c_string_at url)) (handle_header h)
               (handle_post_data h) (handle_on_read_data h)
               (handle_options h) (handle_http_credentials h)).
Proof.
  unfold Handle_url. intros Hne Hw.
  destruct (c_string_at url); [congruence|]. rewrite Hw. reflexivity.
Qed.

Lemma submit_rejects this s :
  url_of (configuration_of s) = [] \/ well_formed (url_of (configuration_of s)) = false ->
  submit this s = (Throws InvalidRequest, this).
Proof.
  intros Hbad. unfold url_of in Hbad.
  destruct s; cbn [submit configuration_of] in *;
    unfold head, get, post, put, Handle_method; cbn [bind];
    rewrite (Handle_url_rejects _ _ Hbad); reflexivity.
Qed.

Lemma submit_accepts this s :
  url_of (configuration_of s) <> [] -> well_formed (url_of (configuration_of s)) = true ->
  submit this s
  = construct_Request this
      (apply_authentication_handler (configuration_of s) (configured_handle s)).
Proof.
  intros Hne Hw. unfold url_of in *.
  destruct s; cbn [submit configuration_of] in *;
    unfold head, get, post, put, Handle_method; cbn [bind];
    rewrite (Handle_url_accepts _ _ Hne Hw); reflexivity.
Qed.

Lemma submit_returns this s r this' :
  submit this s = (Returns r, this') ->
  url_of (configuration_of s) <> []
  /\ well_formed (url_of (configuration_of s)) = true
  /\ apply_authentication_handler (configuration_of s) (configured_handle s)
     = Returns (request_handle r)
  /\ request_state r = pending
  /\ this' = {| multi := snd (new_Request (multi this) (request_handle r)) |}.
Proof.
  intros Hs.
  destruct (url_of (configuration_of s)) as [|c u] eqn:Eu.
  { rewrite submit_rejects in Hs by (left; exact Eu). discriminate Hs. }
  destruct (well_formed (c :: u)) eqn:Ew.
  2:{ rewrite submit_rejects in Hs by (right; rewrite Eu; exact Ew). discriminate Hs. }
  rewrite submit_accepts in Hs by (rewrite Eu; first [discriminate|exact Ew]).
  unfold construct_Request in Hs.
  destruct (apply_authentication_handler _ _) as [h| | |]; try discriminate Hs.
  cbn in Hs. injection Hs as <- <-.
  repeat split; discriminate.
Qed.

Lemma authenticated_handle c h h' :
  apply_authentication_handler c h = Returns h' ->
  handle_method h' = handle_method h
  /\ handle_url h' = handle_url h
  /\ handle_header h' = handle_header h
  /\ handle_post_data h' = handle_post_data h
  /\ handle_on_read_data h' = handle_on_read_data h
  /\ handle_options h' = handle_options h.
Proof.
  unfold apply_authentication_handler.
  destruct (for_http (authentication_handler c)) as [f|].
  - destruct (f (uri c)); cbn; try discriminate.
    intros E. injection E as <-. repeat split.
  - intros E. injection E as <-. repeat split.
Qed.



(** C7: every submission whose URL is accepted and whose authentication
    handler, if it has one, returns, yields a request whose handle has the
    two TLS options set from the two flags of the configuration, each from
    its own flag: verify-host from [verify_host], verify-peer from
    [verify_peer]; both are on for the flags of the default configuration,
    and [verify_peer = false] with [verify_host = true] turns off the peer
    check only. *)
Theorem submit_tls_policy (this : Client) (s : submission) :
  url_of (configuration_of s) <> [] ->
  well_formed (url_of (configuration_of s)) = true ->
  match for_http (authentication_handler (configuration_of s)) with
  | Some handler =>
      exists credentials, handler (uri (configuration_of s)) = Returns credentials
  | None => True
  end ->
  exists r this',
    submit this s = (Returns r, this')
    /\ handle_options (request_handle r) ssl_verify_host
       = Some (if verify_host (ssl (configuration_of s))
               then enable_ssl_host_verification else disable)
    /\ handle_options (request_handle r) ssl_verify_peer
       = Some (if verify_peer (ssl (configuration_of s)) then enable else disable)
    /\ (ssl (configuration_of s) = ssl default_Configuration ->
        handle_options (request_handle r) ssl_verify_host
        = Some enable_ssl_host_verification
        /\ handle_options (request_handle r) ssl_verify_peer = Some enable)
    /\ (verify_peer (ssl (configuration_of s)) = false ->
        verify_host (ssl (configuration_of s)) = true ->
        handle_options (request_handle r) ssl_verify_peer = Some disable
        /\ handle_options (request_handle r) ssl_verify_host
           = Some enable_ssl_host_verification)
    /\ (forall this2 s2 r2 this2',
          submit this2 s2 = (Returns r2, this2') ->
          (verify_host (ssl (configuration_of s2))
           = verify_host (ssl (configuration_of s)) ->
           handle_options (request_handle r2) ssl_verify_host
           = handle_options (request_handle r) ssl_verify_host)
          /\ (verify_peer (ssl (configuration_of s2))
              = verify_peer (ssl (configuration_of s)) ->
              handle_options (request_handle r2) ssl_verify_peer
              = handle_options (request_handle r) ssl_verify_peer)).
Proof.
  assert (A : forall this s r this', submit this s = (Returns r, this') ->
    handle_options (request_handle r) ssl_verify_host
    = Some (if verify_host (ssl (configuration_of s))
            then enable_ssl_host_verification else disable)
    /\ handle_options (request_handle r) ssl_verify_peer
       = Some (if verify_peer (ssl (configuration_of s)) then enable else disable)).
  { intros t0 s0 r0 t0' Hs. apply submit_returns in Hs.
    destruct Hs as (_ & _ & Ha & _). apply authenticated_handle in Ha.
    destruct Ha as (_ & _ & _ & _ & _ & Ho). rewrite Ho. split; reflexivity. }
  intros Hne Hw Hh.
  assert (R : exists r this', submit this s = (Returns r, this')).
  { rewrite submit_accepts by assumption. unfold apply_authentication_handler.
    destruct (for_http (authentication_handler (configuration_of s))) as [handler|].
    - destruct Hh as [cr ->]. cbn. do 2 eexists. reflexivity.
    - cbn. do 2 eexists. reflexivity. }
  destruct R as (r & this' & Hs). exists r, this'.
  destruct (A _ _ _ _ Hs) as [Hho Hpe].
  split; [exact Hs|]. split; [exact Hho|]. split; [exact Hpe|]. split; [|split].
  - intros E. rewrite Hho, Hpe, E. split; reflexivity.
  - intros E1 E2. rewrite Hho, Hpe, E1, E2. split; reflexivity.
  - intros this2 s2 r2 this2' Hs2. destruct (A _ _ _ _ Hs2) as [Hh2 Hp2]. split.
    + intros E. rewrite Hh2, Hho, E. reflexivity.
    + intros E. rewrite Hp2, Hpe, E. reflexivity.
Qed.

(** C3, as the code has it: with an authentication handler and an accepted
    URL, the handler is called with the configured [uri]; the credentials it
    returns are attached to the handle of the request; an exception it
    throws leaves the call unchanged, the client is as it was and no request
    exists. *)
Theorem submit_authentication (this : Client) (s : submission)
    (handler : list byte -> outcome Credentials) :
  for_http (authentication_handler (configuration_of s)) = Some handler ->
  url_of (configuration_of s) <> [] ->
  well_formed (url_of (configuration_of s)) = true ->
  match handler (uri (configuration_of s)) with
  | Returns credentials =>
      exists r this',
        submit this s = (Returns r, this')
        /\ handle_http_credentials (request_handle r)
           = Some (username credentials, password credentials)
        /\ active_handles (multi this') = active_handles (multi this) ++ [request_handle r]
  | Throws e => submit this s = (Throws e, this)
  | Undefined => submit this s = (Undefined, this)
  | OutOfFuel => submit this s = (OutOfFuel, this)
  end.
Proof.
  intros Hh Hne Hw. rewrite submit_accepts by assumption.
  unfold apply_authentication_handler. rewrite Hh.
  destruct (handler (uri (configuration_of s))) as [cr| | |]; cbn [bind]; try reflexivity.
  unfold Handle_http_credentials, construct_Request, new_Request.
  do 2 eexists. split; [reflexivity|]. split; reflexivity.
Qed.

End SubmissionTheorems.




Lemma submit_tls_policy_witness :
  (exists r this',
     head new_Client example_configuration = (Returns r, this')
     /\ handle_options (request_handle r) ssl_verify_host
        = Some enable_ssl_host_verification
     /\ handle_options (request_handle r) ssl_verify_peer = Some disable)
  /\ (exists r this',
       get new_Client example_configuration = (Returns r, this')
       /\ handle_options (request_handle r) ssl_verify_host
          = Some enable_ssl_host_verification
       /\ handle_options (request_handle r) ssl_verify_peer = Some disable)
  /\ (exists r this',
       post new_Client example_configuration payload_with_NUL text_plain
       = (Returns r, this')
       /\ handle_options (request_handle r) ssl_verify_host
          = Some enable_ssl_host_verification
       /\ handle_options (request_handle r) ssl_verify_peer = Some disable)
  /\ (exists r this',
       put new_Client (with_handler granting_handler) 4 = (Returns r, this')
       /\ handle_options (request_handle r) ssl_verify_host
          = Some enable_ssl_host_verification
       /\ handle_options (request_handle r) ssl_verify_peer = Some enable).
Proof.
  split; [|split; [|split]].
  - destruct (submit_tls_policy new_Client (submit_head example_configuration))
      as (r & this' & E & Hh & Hp & _);
      [vm_compute; discriminate|reflexivity|exact I|].
    exists r, this'. split; [exact E|]. split; [exact Hh|exact Hp].
  - destruct (submit_tls_policy new_Client (submit_get example_configuration))
      as (r & this' & E & Hh & Hp & _);
      [vm_compute; discriminate|reflexivity|exact I|].
    exists r, this'. split; [exact E|]. split; [exact Hh|exact Hp].
  - destruct (submit_tls_policy new_Client
                (submit_post example_configuration payload_with_NUL text_plain))
      as (r & this' & E & Hh & Hp & _);
      [vm_compute; discriminate|reflexivity|exact I|].
    exists r, this'. split; [exact E|]. split; [exact Hh|exact Hp].
  - destruct (submit_tls_policy new_Client
                (submit_put (with_handler granting_handler) 4))
      as (r & this' & E & Hh & Hp & _);
      [vm_compute; discriminate|reflexivity|eexists; reflexivity|].
    exists r, this'. split; [exact E|]. split; [exact Hh|exact Hp].
Defined.

Lemma submit_authentication_witness :
  exists r this',
    head new_Client (with_handler granting_handler) = (Returns r, this')
    /\ handle_http_credentials (request_handle r)
       = Some (example_uri, secret)
    /\ active_handles (multi this') = active_handles (multi new_Client) ++ [request_handle r].
Proof.
  refine (submit_authentication new_Client (submit_head (with_handler granting_handler))
            granting_handler eq_refl _ eq_refl).
  discriminate.
Defined.

(** C3, as the spec has it, fails: the exception of the handler arrives
    as it was thrown, not as CredentialResolutionFailed. *)
Lemma handler_exception_is_not_wrapped :
  head new_Client (with_handler refusing_handler)
  = (Throws (foreign_exception "std::runtime_error" "no credentials"), new_Client)
  /\ fst (head new_Client (with_handler refusing_handler))
     <> Throws CredentialResolutionFailed.
Proof.
  split; [reflexivity|]. cbn. discriminate.
Qed.

Lemma to_streamsize_small v : 0 <= v < 2 ^ 63 -> to_streamsize v = v.
Proof.
  intros Hv. unfold to_streamsize, STREAMSIZE_WIDTH.
  rewrite Z.mod_small by (change (2 ^ 64) with (2 * 2 ^ 63); lia).
  change (64 - 1) with 63. destruct (Z.ltb_spec v (2 ^ 63)); [reflexivity|lia].
Qed.

(** What one invocation of the read callback of [put] does: it takes up to
    [size] characters from the stream, whatever the capacity
    [in_size * nmemb] of the destination and whatever was taken before. *)
Theorem put_read_lambda_spec (size : Z) (payload : istream) (in_size nmemb : Z) :
  0 <= size < 2 ^ 63 ->
  stored (put_read_lambda size payload in_size nmemb)
  = firstn (Z.to_nat size) (get_area payload)
  /\ get_area (payload_after (put_read_lambda size payload in_size nmemb))
     = skipn (Z.to_nat size) (get_area payload)
  /\ returned (put_read_lambda size payload in_size nmemb)
     = Z.min size (Z.of_nat (length (get_area payload))).
Proof.
  intros Hs. unfold put_read_lambda, readsome. rewrite to_streamsize_small by assumption.
  cbn [stored returned payload_after get_area].
  rewrite Z.max_r by lia. repeat split.
  rewrite length_firstn. lia.
Qed.

Lemma put_read_lambda_spec_witness :
  stored (put_read_lambda 4 six_available 1 2) = ["a"; "b"; "c"; "d"]%byte.
Proof.
  refine (proj1 (put_read_lambda_spec 4 six_available 1 2 _)).
  lia.
Defined.

Section PostAndPut.
Context `{U : UrlSyntax}.

(** The body of a post is the payload up to its first NUL, with the content
    type given; it is the whole payload when that holds no NUL, the empty
    payload included. *)
Theorem post_attaches_c_string (this : Client) (c : Configuration)
    (payload ct : list byte) (r : Request) (this' : Client) :
  post this c payload ct = (Returns r, this') ->
  handle_post_data (request_handle r) = Some (until_NUL payload, ct)
  /\ (~ In NUL payload -> until_NUL payload = payload).
Proof.
  intros Hs. apply (submit_returns this (submit_post c payload ct)) in Hs.
  destruct Hs as (_ & _ & Ha & _). apply authenticated_handle in Ha.
  destruct Ha as (_ & _ & _ & Hp & _). split.
  - rewrite Hp. cbn [configured_handle handle_post_data]. rewrite c_string_at_c_str. reflexivity.
  - apply until_NUL_id.
Qed.

Lemma put_installs_read_lambda this c size r this' :
  put this c size = (Returns r, this') ->
  handle_on_read_data (request_handle r) = Some (put_read_lambda size, size).
Proof.
  intros Hs. apply (submit_returns this (submit_put c size)) in Hs.
  destruct Hs as (_ & _ & Ha & _). apply authenticated_handle in Ha.
  destruct Ha as (_ & _ & _ & _ & Hp & _). rewrite Hp. reflexivity.
Qed.

End PostAndPut.

Lemma post_attaches_c_string_witness :
  exists r this',
    post new_Client example_configuration [] text_plain = (Returns r, this')
    /\ handle_post_data (request_handle r) = Some ([], text_plain).
Proof.
  destruct (post new_Client example_configuration [] text_plain)
    as [[r| | |] this'] eqn:E; try (vm_compute in E; discriminate E).
  exists r, this'. split; [reflexivity|].
  exact (proj1 (post_attaches_c_string new_Client example_configuration [] text_plain
                  r this' E)).
Defined.

(** C8 at a payload with an embedded NUL: the body attached to the handle
    is the one character before the NUL, not the three of the payload. *)
Theorem post_truncates_payload_at_NUL :
  exists r this',
    post new_Client example_configuration payload_with_NUL text_plain = (Returns r, this')
    /\ handle_post_data (request_handle r) = Some (["a"%byte], text_plain)
    /\ length payload_with_NUL = 3%nat.
Proof.
  do 2 eexists. split; [reflexivity|]. split; reflexivity.
Qed.

(** C2 at a put of declared size 4.  From a stream that has two characters
    available, and four more by the time of the second invocation, the
    installed callback stores two characters and then four, six in all,
    where two remained of the declared size.  From a stream that has six
    characters available, run with a destination of capacity 1 * 2, it
    stores four characters there. *)
Theorem put_read_callback_overruns :
  exists r this' callback,
    put new_Client example_configuration 4 = (Returns r, this')
    /\ handle_on_read_data (request_handle r) = Some (callback, 4)
    /\ (let first := callback two_available 1 16384 in
        let second :=
          callback (arrive ["c"; "d"; "e"; "f"]%byte (payload_after first)) 1 16384 in
        stored first = ["a"; "b"]%byte
        /\ stored second = ["c"; "d"; "e"; "f"]%byte
        /\ Z.of_nat (length (stored second)) > 4 - Z.of_nat (length (stored first))
        /\ Z.of_nat (length (stored first)) + Z.of_nat (length (stored second)) > 4)
    /\ stored (callback six_available 1 2) = ["a"; "b"; "c"; "d"]%byte
    /\ Z.of_nat (length (stored (callback six_available 1 2))) > 1 * 2.
Proof.
  do 3 eexists. split; [reflexivity|]. split; [reflexivity|].
  cbv zeta. repeat split.
Qed.

(** ** Decoding, group by group

    The decoding iterator on any text: what one [dereference] returns or
    throws in each of its states, then the [std::copy] loop four characters
    at a time. *)

Lemma to_6_bit_value_check `{P : Platform} c : to_6_bit_value_ok c = true.
Proof.
  revert c. apply forall_byte_spec. revert P. apply forall_platform_spec.
  vm_compute. reflexivity.
Qed.

Lemma to_6_bit_valid `{P : Platform} c v :
  base64_value c = Some v ->
  to_6_bit c = Returns (byte_of_Z v) /\ 0 <= v < 64 /\ c <> NUL.
Proof.
  intros E. pose proof (to_6_bit_value_check c) as H. unfold to_6_bit_value_ok in H.
  rewrite E in H. destruct (to_6_bit c) as [w|[[]| | |]| |]; try discriminate H.
  apply andb_prop in H. destruct H as [H H3].
  apply andb_prop in H. destruct H as [H H2].
  apply andb_prop in H. destruct H as [H0 H1].
  apply byte_eqb_eq in H0. subst w. repeat split; try lia.
  intros ->. discriminate H3.
Qed.

Lemma to_6_bit_invalid `{P : Platform} c :
  base64_value c = None -> to_6_bit c = invalid_character.
Proof.
  intros E. pose proof (to_6_bit_value_check c) as H. unfold to_6_bit_value_ok in H.
  rewrite E in H. destruct (to_6_bit c) as [w|[[]| | |]| |]; try discriminate H.
  reflexivity.
Qed.

Lemma base64_value_char v : 0 <= v < 64 -> base64_value (rfc4648_char v) = Some v.
Proof.
  intros Hv.
  assert (H : match base64_value (rfc4648_char v) with
              | Some w => w =? v
              | None => false
              end = true).
  { revert v Hv. apply (forall_below_spec 64). vm_compute. reflexivity. }
  destruct (base64_value (rfc4648_char v)) as [w|]; [|discriminate H].
  apply Z.eqb_eq in H. subst w. reflexivity.
Qed.

Lemma list_ind4 {A} (Q : list A -> Prop) :
  Q [] -> (forall a, Q [a]) -> (forall a b, Q [a; b]) -> (forall a b c, Q [a; b; c]) ->
  (forall a b c d l, Q l -> Q (a :: b :: c :: d :: l)) ->
  forall l, Q l.
Proof.
  intros H0 H1 H2 H3 H4.
  fix IH 1. intros [|a [|b [|c [|d l]]]].
  - exact H0.
  - apply H1.
  - apply H2.
  - apply H3.
  - apply H4, IH.
Qed.

Lemma octets_of_group24 v0 v1 v2 v3 :
  0 <= v0 < 64 -> 0 <= v1 < 64 -> 0 <= v2 < 64 -> 0 <= v3 < 64 ->
  octets_of_group (group24 v0 v1 v2 v3)
  = [byte_of_Z (v0 * 4 + v1 / 16); byte_of_Z (v1 mod 16 * 16 + v2 / 4);
     byte_of_Z (v2 mod 4 * 64 + v3)].
Proof.
  intros H0 H1 H2 H3. unfold octets_of_group, group24.
  f_equal; [|f_equal; [|f_equal]]; f_equal; pow_consts; Z.div_mod_to_equations; lia.
Qed.

Section DecodingAnyText.
Context `{P : Platform}.

Arguments extract_bits : simpl never.
Arguments append_bits : simpl never.
Arguments to_6_bit : simpl never.
Arguments char_of_int : simpl never.
Arguments Z.min _ _ : simpl nomatch.
Arguments Z.sub _ _ : simpl nomatch.
Arguments Z.add _ _ : simpl nomatch.
Arguments Z.opp _ : simpl nomatch.
Arguments Z.ltb _ _ : simpl nomatch.
Arguments Z.eqb _ _ : simpl nomatch.
Arguments fill_loop : simpl never.

Ltac run_fill_any :=
  unfold transform_width_dereference, fill, decoder_at;
  change (Z.to_nat 8) with 8%nat; cbn;
  repeat (rewrite fill_loop_unfold; cbn;
          repeat match goal with
          | H : nth_error ?blk ?p = Some ?c, E : to_6_bit ?c = _
            |- context [nth_error ?blk ?p] =>
              rewrite H; cbn; rewrite E; cbn
          end).

Lemma dec_any_0 blk p out buf c0 c1 v0 v1 :
  nth_error blk p = Some c0 -> nth_error blk (p + 1) = Some c1 ->
  to_6_bit c0 = Returns (byte_of_Z v0) -> to_6_bit c1 = Returns (byte_of_Z v1) ->
  0 <= v0 < 64 -> 0 <= v1 < 64 ->
  transform_width_dereference (decoder_at blk p false out buf 0 false)
  = Returns (byte_of_Z (v0 * 4 + v1 / 16),
             decoder_at blk (p + 1 + 1) true (byte_of_Z (v0 * 4 + v1 / 16)) (byte_of_Z v1) 4 false).
Proof. intros H0 H1 E0 E1 Hv0 Hv1. run_fill_any. finish_fill. Qed.

Lemma dec_any_4 blk p out c2 v1 v2 :
  nth_error blk p = Some c2 -> to_6_bit c2 = Returns (byte_of_Z v2) ->
  0 <= v1 < 64 -> 0 <= v2 < 64 ->
  transform_width_dereference (decoder_at blk p false out (byte_of_Z v1) 4 false)
  = Returns (byte_of_Z (v1 mod 16 * 16 + v2 / 4),
             decoder_at blk (p + 1) true (byte_of_Z (v1 mod 16 * 16 + v2 / 4)) (byte_of_Z v2) 2 false).
Proof. intros H0 E0 Hv1 Hv2. run_fill_any. finish_fill. Qed.

Lemma dec_any_2 blk p out c3 v2 v3 :
  nth_error blk p = Some c3 -> to_6_bit c3 = Returns (byte_of_Z v3) ->
  0 <= v2 < 64 -> 0 <= v3 < 64 ->
  transform_width_dereference (decoder_at blk p false out (byte_of_Z v2) 2 false)
  = Returns (byte_of_Z (v2 mod 4 * 64 + v3),
             decoder_at blk (p + 1) true (byte_of_Z (v2 mod 4 * 64 + v3)) (byte_of_Z v3) 0 false).
Proof. intros H0 E0 Hv2 Hv3. run_fill_any. finish_fill. Qed.

Lemma dec_any_0_invalid blk p out buf c0 :
  nth_error blk p = Some c0 -> to_6_bit c0 = invalid_character ->
  transform_width_dereference (decoder_at blk p false out buf 0 false) = invalid_character.
Proof. intros H0 E0. run_fill_any. reflexivity. Qed.

Lemma dec_any_0_invalid1 blk p out buf c0 c1 v0 :
  nth_error blk p = Some c0 -> nth_error blk (p + 1) = Some c1 ->
  to_6_bit c0 = Returns (byte_of_Z v0) -> to_6_bit c1 = invalid_character ->
  transform_width_dereference (decoder_at blk p false out buf 0 false) = invalid_character.
Proof. intros H0 H1 E0 E1. run_fill_any. reflexivity. Qed.

Lemma dec_any_4_invalid blk p out buf c :
  nth_error blk p = Some c -> to_6_bit c = invalid_character ->
  transform_width_dereference (decoder_at blk p false out buf 4 false) = invalid_character.
Proof. intros H0 E0. run_fill_any. reflexivity. Qed.

Lemma dec_any_2_invalid blk p out buf c :
  nth_error blk p = Some c -> to_6_bit c = invalid_character ->
  transform_width_dereference (decoder_at blk p false out buf 2 false) = invalid_character.
Proof. intros H0 E0. run_fill_any. reflexivity. Qed.

End DecodingAnyText.

Section DecodeText.
Context `{P : Platform}.

(** Past the end it was given, the decoding iterator is never equal to it
    and goes on until it meets the terminating NUL. *)
Lemma dec_overrun s last : forall fuel p out buf rem,
  (last < p <= length s)%nat -> rem = 0 \/ rem = 2 \/ rem = 4 ->
  (length s - p < fuel)%nat ->
  std_copy fuel (decoder_at (s ++ [NUL]) p false out buf rem false)
    (base64_dec (mk_ptr (s ++ [NUL]) last))
  = invalid_character.
Proof.
  induction fuel as [|fuel IH]; intros p out buf rem Hp Hrem Hf; [lia|].
  rewrite std_copy_dec_step. decide_eqb.
  destruct (dec_deref_cases s p out buf rem ltac:(lia) Hrem)
    as [E|(o & p' & buf' & rem' & E & Hp' & Hrem')];
    rewrite E; cbn [bind]; [reflexivity|].
  rewrite decoder_at_increment.
  rewrite (IH p' o buf' rem' ltac:(lia) Hrem' ltac:(lia)). reflexivity.
Qed.

Lemma nth_error_storage (s : list byte) p c :
  nth_error (s ++ [NUL]) p = Some c -> c <> NUL -> (p < length s)%nat.
Proof.
  intros E Hc. destruct (Nat.lt_ge_cases p (length s)) as [Hlt|Hge]; [assumption|].
  rewrite nth_error_app2 in E by assumption.
  destruct (p - length s)%nat as [|k]; cbn in E.
  - injection E as <-. congruence.
  - destruct k; discriminate E.
Qed.

Ltac char_value c v E :=
  let Hv := fresh "Hv" in let Hn := fresh "Hn" in let T := fresh "T" in
  unfold value_of at 1;
  destruct (base64_value c) as [v|] eqn:E;
  [ destruct (to_6_bit_valid c v E) as (T & Hv & Hn)
  | pose proof (to_6_bit_invalid c E) as T ];
  cbn [bind].

Ltac turn :=
  rewrite std_copy_dec_step; decide_eqb;
  first [ erewrite dec_any_0 by eassumption
        | erewrite dec_any_4 by eassumption
        | erewrite dec_any_2 by eassumption ];
  cbn [bind]; rewrite decoder_at_increment.

Ltac turn_invalid :=
  rewrite std_copy_dec_step; decide_eqb;
  first [ erewrite dec_any_0_invalid by eassumption
        | erewrite dec_any_0_invalid1 by eassumption
        | erewrite dec_any_4_invalid by eassumption
        | erewrite dec_any_2_invalid by eassumption ];
  reflexivity.

Lemma dec_text (s : list byte) : forall t fuel p out buf tl,
  skipn p (s ++ [NUL]) = t ++ tl ->
  (p + length t <= length s)%nat ->
  (length s - p < fuel)%nat ->
  std_copy fuel (decoder_at (s ++ [NUL]) p false out buf 0 false)
    (base64_dec (mk_ptr (s ++ [NUL]) (p + length t)))
  = decode_text t.
Proof.
  induction t as [|c0|c0 c1|c0 c1 c2|c0 c1 c2 c3 t IH] using list_ind4;
    intros fuel p out buf tl Hs Hl Hf; cbn [length] in *.
  - destruct fuel as [|fuel]; [lia|].
    rewrite std_copy_dec_step. decide_eqb. reflexivity.
  - destruct tl as [|c1 tl].
    { apply (f_equal (@length byte)) in Hs.
      rewrite length_skipn, length_app in Hs. cbn in Hs. lia. }
    destruct fuel as [|fuel]; [lia|]. reads Hs. cbn [decode_text].
    destruct (base64_value c0) as [v0|] eqn:E0.
    2:{ pose proof (to_6_bit_invalid c0 E0). turn_invalid. }
    destruct (to_6_bit_valid c0 v0 E0) as (T0 & Hv0 & Hn0).
    destruct (base64_value c1) as [v1|] eqn:E1.
    2:{ pose proof (to_6_bit_invalid c1 E1). turn_invalid. }
    destruct (to_6_bit_valid c1 v1 E1) as (T1 & Hv1 & Hn1).
    turn.
    match goal with H : nth_error _ (p + 1) = Some c1 |- _ =>
      pose proof (nth_error_storage _ _ _ H Hn1) end.
    rewrite dec_overrun; [reflexivity|lia|auto|lia].
  - do 2 (destruct fuel as [|fuel]; [lia|]). reads Hs. cbn [decode_text].
    char_value c0 v0 E0; [|turn_invalid].
    char_value c1 v1 E1; [|turn_invalid].
    turn.
    rewrite std_copy_dec_step. decide_eqb.
    rewrite octets_of_group24 by lia. reflexivity.
  - do 3 (destruct fuel as [|fuel]; [lia|]). reads Hs. cbn [decode_text].
    char_value c0 v0 E0; [|turn_invalid].
    char_value c1 v1 E1; [|turn_invalid].
    char_value c2 v2 E2; [|turn; turn_invalid].
    turn. turn.
    rewrite std_copy_dec_step. decide_eqb.
    rewrite octets_of_group24 by lia. cbn [firstn].
    reflexivity.
  - do 3 (destruct fuel as [|fuel]; [lia|]). reads Hs. cbn [decode_text].
    char_value c0 v0 E0; [|turn_invalid].
    char_value c1 v1 E1; [|turn_invalid].
    char_value c2 v2 E2; [|turn; turn_invalid].
    char_value c3 v3 E3; [|turn; turn; turn_invalid].
    turn. turn. turn.
    replace (p + S (S (S (S (length t)))))%nat with (p + 1 + 1 + 1 + 1 + length t)%nat by lia.
    rewrite (IH fuel (p + 1 + 1 + 1 + 1)%nat _ _ tl); [| |lia|lia].
    + rewrite octets_of_group24 by lia. destruct (decode_text t); reflexivity.
    + replace (p + 1 + 1 + 1 + 1)%nat with (4 + p)%nat by lia.
      rewrite <- (skipn_skipn 4 p), Hs. reflexivity.
Qed.

End DecodeText.

Lemma strip_padding_prefix s : exists r, s = strip_padding s ++ r.
Proof.
  unfold strip_padding. destruct (rev s) as [|c r] eqn:E.
  - exists s. reflexivity.
  - apply (f_equal (@rev byte)) in E. rewrite rev_involutive in E. cbn [rev] in E.
    destruct (Byte.eqb c EQUALS_SIGN); [|exists []; rewrite app_nil_r; reflexivity].
    destruct r as [|d r'].
    + exists s. reflexivity.
    + destruct (Byte.eqb d EQUALS_SIGN).
      * exists [d; c]. rewrite E. cbn [rev]. rewrite <- app_assoc. reflexivity.
      * exists [c]. exact E.
Qed.

Lemma visible_prefix s : exists r, s = visible s ++ r.
Proof.
  exists (skipn (Z.to_nat (to_unsigned_int (size s))) s).
  unfold visible. rewrite firstn_skipn. reflexivity.
Qed.

Section CodecByGroups.
Context `{P : Platform}.

Lemma decode_size_stripped s : decode_size s = size (strip_padding (visible s)).
Proof.
  rewrite decode_size_visible. apply decode_size_strip_padding.
  rewrite size_visible. apply to_unsigned_int_range.
Qed.

Lemma base64_decode_decode_text (s : list byte) :
  base64_decode s = decode_text (strip_padding (visible s)).
Proof.
  unfold base64_decode. rewrite decode_size_stripped.
  destruct (strip_padding_prefix (visible s)) as [r1 E1].
  destruct (visible_prefix s) as [r2 E2].
  set (t := strip_padding (visible s)) in *.
  assert (Es : s = t ++ (r1 ++ r2)) by (rewrite app_assoc, <- E1; exact E2).
  destruct (size t =? 0) eqn:E0.
  - apply Z.eqb_eq in E0. unfold size in E0.
    destruct t; [reflexivity|cbn in E0; lia].
  - change (base64_dec (data s)) with (decoder_at (s ++ [NUL]) 0 false x00 x00 0 false).
    replace (base64_dec (ptr_add (data s) (Z.to_nat (size t))))
      with (base64_dec (mk_ptr (s ++ [NUL]) (0 + length t)))
      by (unfold size; rewrite Nat2Z.id; reflexivity).
    apply (dec_text s t _ 0%nat _ _ ((r1 ++ r2) ++ [NUL])).
    + cbn [skipn]. rewrite Es at 1. rewrite <- app_assoc. reflexivity.
    + apply (f_equal (@length byte)) in Es. rewrite length_app in Es. lia.
    + lia.
Qed.

End CodecByGroups.

Lemma size_cons4 (a b c d : byte) l : size (a :: b :: c :: d :: l) = size l + 4.
Proof. unfold size. cbn [length]. lia. Qed.

Lemma decode_text_decodable t :
  if decodable t then
    exists o, decode_text t = Returns o /\ size o = 3 * size t / 4
  else decode_text t = invalid_character.
Proof.
  induction t as [|c0|c0 c1|c0 c1 c2|c0 c1 c2 c3 t IH] using list_ind4.
  - exists []. split; reflexivity.
  - unfold decodable. cbn [length]. change (Nat.eqb (1 mod 4) 1) with true.
    rewrite andb_false_r. reflexivity.
  - unfold decodable. cbn [forallb decode_text length].
    unfold is_base64_character, value_of.
    destruct (base64_value c0); cbn [bind andb]; [|reflexivity].
    destruct (base64_value c1); cbn [bind andb]; [|reflexivity].
    eexists. split; reflexivity.
  - unfold decodable. cbn [forallb decode_text length].
    unfold is_base64_character, value_of.
    destruct (base64_value c0); cbn [bind andb]; [|reflexivity].
    destruct (base64_value c1); cbn [bind andb]; [|reflexivity].
    destruct (base64_value c2); cbn [bind andb]; [|reflexivity].
    eexists. split; reflexivity.
  - unfold decodable in *. cbn [forallb decode_text length].
    replace (S (S (S (S (length t)))) mod 4)%nat with (length t mod 4)%nat
      by (replace (S (S (S (S (length t))))) with (length t + 1 * 4)%nat by lia;
          rewrite Nat.Div0.mod_add; reflexivity).
    unfold is_base64_character at 1 2 3 4. unfold value_of.
    destruct (base64_value c0); cbn [bind andb]; [|reflexivity].
    destruct (base64_value c1); cbn [bind andb]; [|reflexivity].
    destruct (base64_value c2); cbn [bind andb]; [|reflexivity].
    destruct (base64_value c3); cbn [bind andb]; [|reflexivity].
    destruct (forallb is_base64_character t && negb (Nat.eqb (length t mod 4) 1)).
    + destruct IH as (o & -> & Ho). cbn [bind]. eexists. split; [reflexivity|].
      unfold octets_of_group. cbn [app]. rewrite size_cons4, !size_cons, Ho.
      pose proof (size_nonneg t). Z.div_mod_to_equations. lia.
    + rewrite IH. reflexivity.
Qed.

Lemma in_alphabet_char c :
  In c rfc4648_alphabet -> exists v, 0 <= v < 64 /\ c = rfc4648_char v.
Proof.
  intros Hc. destruct (In_nth _ _ NUL Hc) as (n & Hn & E).
  change (length rfc4648_alphabet) with 64%nat in Hn.
  exists (Z.of_nat n). split; [lia|].
  unfold rfc4648_char. rewrite Nat2Z.id. symmetry. exact E.
Qed.

Lemma index_of_in c l v : index_of c l = Some v -> In c l.
Proof.
  induction l as [|x l IH] in v |- *; cbn [index_of]; [discriminate|].
  destruct (Byte.eqb c x) eqn:E.
  - intros _. left. symmetry. apply byte_eqb_eq. exact E.
  - destruct (index_of c l) as [w|]; [|discriminate].
    intros _. right. apply (IH w). reflexivity.
Qed.

Lemma base64_value_in c v :
  base64_value c = Some v -> c = EQUALS_SIGN \/ In c rfc4648_alphabet.
Proof.
  unfold base64_value. destruct (Byte.eqb c rfc4648_pad) eqn:E.
  - intros _. left. apply byte_eqb_eq. exact E.
  - intros H. right. apply (index_of_in _ _ _ H).
Qed.

Lemma decodable_alphabet t :
  Forall (fun c => In c rfc4648_alphabet) t -> (length t mod 4 <> 1)%nat ->
  decodable t = true.
Proof.
  intros Ha Hn. unfold decodable. apply andb_true_intro. split.
  - apply forallb_forall. intros c Hc. rewrite Forall_forall in Ha.
    destruct (in_alphabet_char c (Ha c Hc)) as (v & Hv & ->).
    unfold is_base64_character. rewrite base64_value_char by assumption. reflexivity.
  - apply negb_true_iff, Nat.eqb_neq. exact Hn.
Qed.

Lemma not_decodable t :
  (exists c, In c t /\ c <> EQUALS_SIGN /\ ~ In c rfc4648_alphabet)
  \/ (length t mod 4 = 1)%nat ->
  decodable t = false.
Proof.
  unfold decodable. intros [(c & Hc & Hp & Ha)|Hn].
  - destruct (forallb is_base64_character t) eqn:E; [|reflexivity].
    rewrite forallb_forall in E. specialize (E c Hc).
    unfold is_base64_character in E.
    destruct (base64_value c) as [v|] eqn:Ev; [|discriminate E].
    destruct (base64_value_in c v Ev) as [->|Hin]; [destruct (Hp eq_refl)|].
    destruct (Ha Hin).
  - rewrite Hn. apply andb_false_r.
Qed.

Lemma in_alphabet_check c :
  existsb (Byte.eqb c) rfc4648_alphabet = true -> In c rfc4648_alphabet.
Proof.
  intros H. apply existsb_exists in H. destruct H as (x & Hx & E).
  apply byte_eqb_eq in E. subst x. exact Hx.
Qed.

Lemma not_in_alphabet_check c :
  existsb (Byte.eqb c) rfc4648_alphabet = false -> ~ In c rfc4648_alphabet.
Proof.
  intros H Hin.
  assert (T : existsb (Byte.eqb c) rfc4648_alphabet = true).
  { apply existsb_exists. exists c. split; [exact Hin|].
    destruct c; reflexivity. }
  rewrite T in H. discriminate H.
Qed.

Lemma decode_text_chars s : decode_text (base64_chars s) = Returns s.
Proof.
  induction s as [|b0|b0 b1|b0 b1 b2 l IH] using list_ind3;
    cbn [base64_chars decode_text]; unfold value_of;
    rewrite ?base64_value_char by sextet_range; cbn [bind].
  - reflexivity.
  - rewrite octets_of_group24 by first [sextet_range | lia]. cbn [firstn].
    rewrite octet0. reflexivity.
  - rewrite octets_of_group24 by first [sextet_range | lia]. cbn [firstn].
    rewrite octet0, octet1. reflexivity.
  - rewrite IH. cbn [bind].
    rewrite octets_of_group24 by sextet_range.
    rewrite octet0, octet1, octet2. reflexivity.
Qed.

Lemma strip_padding_chars s pad :
  In pad [[]; [EQUALS_SIGN]; [EQUALS_SIGN; EQUALS_SIGN]] ->
  strip_padding (base64_chars s ++ pad) = base64_chars s.
Proof.
  intros Hpad. destruct s as [|b s'].
  { cbn in Hpad. destruct Hpad as [<-|[<-|[<-|[]]]]; reflexivity. }
  destruct (base64_chars_last (b :: s')) as (body & v & Hv & E); [discriminate|].
  rewrite E. unfold strip_padding.
  cbn in Hpad. destruct Hpad as [<-|[<-|[<-|[]]]].
  - rewrite app_nil_r, rev_snoc, rfc4648_char_not_pad by assumption. reflexivity.
  - rewrite !rev_snoc. change (Byte.eqb EQUALS_SIGN EQUALS_SIGN) with true. cbn iota.
    rewrite rfc4648_char_not_pad by assumption.
    rewrite <- rev_snoc, rev_involutive. reflexivity.
  - replace ((body ++ [rfc4648_char v]) ++ [EQUALS_SIGN; EQUALS_SIGN])
      with (((body ++ [rfc4648_char v]) ++ [EQUALS_SIGN]) ++ [EQUALS_SIGN])
      by (rewrite <- !app_assoc; reflexivity).
    rewrite !rev_snoc. change (Byte.eqb EQUALS_SIGN EQUALS_SIGN) with true. cbn iota.
    rewrite <- rev_snoc, rev_involutive. reflexivity.
Qed.

Lemma rfc4648_char_in v : 0 <= v < 64 -> In (rfc4648_char v) rfc4648_alphabet.
Proof.
  intros Hv. unfold rfc4648_char. apply nth_In.
  change (length rfc4648_alphabet) with 64%nat. lia.
Qed.

Lemma base64_chars_in s : Forall (fun c => In c rfc4648_alphabet) (base64_chars s).
Proof.
  induction s as [|b0|b0 b1|b0 b1 b2 l IH] using list_ind3; cbn [base64_chars];
    repeat (apply Forall_cons; [apply rfc4648_char_in; sextet_range|]);
    first [assumption | apply Forall_nil].
Qed.

Lemma base64_chars_app a b :
  size a mod 3 = 0 -> base64_chars (a ++ b) = base64_chars a ++ base64_chars b.
Proof.
  induction a as [|b0|b0 b1|b0 b1 b2 l IH] using list_ind3; intros Ha.
  - reflexivity.
  - discriminate Ha.
  - discriminate Ha.
  - cbn [app base64_chars]. rewrite IH; [reflexivity|].
    rewrite !size_cons in Ha. rewrite <- Ha.
    replace (size l + 1 + 1 + 1) with (size l + 1 * 3) by lia.
    rewrite Z.mod_add by lia. reflexivity.
Qed.

(** ** Properties of the codec *)

Section CodecComposition.
Context `{P : Platform}.

(** [base64_decode] computes group by group: its outcome on [s] is
    [decode_text] of the characters the [unsigned int size] covers, less up
    to two "=" at their end. *)
Theorem base64_decode_by_groups (s : list byte) :
  base64_decode s = decode_text (strip_padding (visible s)).
Proof. apply base64_decode_decode_text. Qed.

(** The outcome of [base64_decode], by the text that is left of the
    characters its size covers once the padding is removed.  When every
    character of that text is of the alphabet and no group of one character
    is left over, it is a string of three octets for every four characters.
    When a character of that text is neither of the alphabet nor "=", or a
    group of one character is left over, it is the exception of
    [binary_from_base64]. *)
Theorem base64_decode_accepts (s : list byte) :
  (Forall (fun c => In c rfc4648_alphabet) (strip_padding (visible s)) ->
   (length (strip_padding (visible s)) mod 4 <> 1)%nat ->
   exists o, base64_decode s = Returns o
     /\ size o = 3 * size (strip_padding (visible s)) / 4)
  /\ ((exists c, In c (strip_padding (visible s))
                /\ c <> EQUALS_SIGN /\ ~ In c rfc4648_alphabet)
      \/ (length (strip_padding (visible s)) mod 4 = 1)%nat ->
      base64_decode s = Throws (dataflow_exception invalid_base64_character)).
Proof.
  rewrite base64_decode_decode_text.
  pose proof (decode_text_decodable (strip_padding (visible s))) as D.
  split.
  - intros Ha Hn. rewrite decodable_alphabet in D by assumption. exact D.
  - intros Hb. rewrite not_decodable in D by assumption. exact D.
Qed.

(** The padding is not needed to decode: the encoding of [s] without its
    padding, or with one or two "=" whatever the length of [s], decodes to
    [s]. *)
Theorem base64_decode_any_padding (s e pad : list byte) :
  base64_encode s = Returns e ->
  size e < 2 ^ 32 ->
  In pad [[]; [EQUALS_SIGN]; [EQUALS_SIGN; EQUALS_SIGN]] ->
  base64_decode (strip_padding e ++ pad) = Returns s.
Proof.
  intros He Hlt Hpad. rewrite base64_encode_chars in He. injection He as <-.
  rewrite strip_padding_encoded. rewrite base64_decode_decode_text.
  rewrite visible_small.
  - rewrite strip_padding_chars by assumption. apply decode_text_chars.
  - rewrite size_encoded in Hlt. rewrite size_app.
    assert (Hc : size (base64_chars s) <= 4 * ((size s + 2) / 3)).
    { rewrite <- size_encoded, size_app. pose proof (size_nonneg (padding_of s)). lia. }
    assert (Hp : size pad <= 2).
    { cbn in Hpad. destruct Hpad as [<-|[<-|[<-|[]]]]; cbn; lia. }
    lia.
Qed.

(** Different strings have different encodings, whatever their length. *)
Theorem base64_encode_injective (s1 s2 : list byte) :
  base64_encode s1 = base64_encode s2 -> s1 = s2.
Proof.
  rewrite !base64_encode_chars. intros E. injection E as E.
  apply (f_equal strip_padding) in E. rewrite !strip_padding_encoded in E.
  apply (f_equal decode_text) in E. rewrite !decode_text_chars in E.
  injection E as E. exact E.
Qed.

(** [base64_encode] returns four characters for every three octets begun,
    all of them characters of the alphabet or "=". *)
Theorem base64_encode_length (s : list byte) :
  exists e, base64_encode s = Returns e
    /\ size e = 4 * ((size s + 2) / 3)
    /\ Forall (fun c => In c rfc4648_alphabet \/ c = EQUALS_SIGN) e.
Proof.
  exists (base64_chars s ++ padding_of s).
  split; [apply base64_encode_chars|]. split; [apply size_encoded|].
  apply Forall_app. split.
  - eapply Forall_impl; [|apply base64_chars_in]. intros c Hc. left. exact Hc.
  - destruct (padding_of_cases s) as [[-> _]|[[-> _]|[-> _]]];
      repeat (apply Forall_cons; [right; reflexivity|]); apply Forall_nil.
Qed.

(** Encoding in pieces: when the first piece has a multiple of three
    octets, the encoding of the whole is the encodings of the pieces, one
    after the other. *)
Theorem base64_encode_app (a b : list byte) :
  size a mod 3 = 0 ->
  base64_encode (a ++ b)
  = (ea <- base64_encode a ;; eb <- base64_encode b ;; Returns (ea ++ eb)).
Proof.
  intros Ha. rewrite !base64_encode_chars. cbn [bind].
  rewrite base64_chars_app by assumption.
  assert (Hp : padding_of a = []).
  { destruct (padding_of_cases a) as [[-> _]|[[_ E]|[_ E]]]; [reflexivity|lia|lia]. }
  assert (Hq : padding_of (a ++ b) = padding_of b).
  { unfold padding_of. rewrite size_app.
    rewrite Z.add_mod, Ha, Z.add_0_l, Z.mod_mod by lia. reflexivity. }
  rewrite Hp, Hq, app_nil_r, app_assoc. reflexivity.
Qed.

End CodecComposition.

Lemma strip_padding_long (l r : list byte) :
  (2 <= length r)%nat -> strip_padding (l ++ r) = l ++ strip_padding r.
Proof.
  intros Hr.
  assert (E : exists u y x, r = (u ++ [y]) ++ [x]).
  { destruct (rev r) as [|x [|y w]] eqn:E;
      apply (f_equal (@rev byte)) in E; rewrite rev_involutive in E; subst r;
      cbn in Hr; try lia.
    exists (rev w), y, x. reflexivity. }
  destruct E as (u & y & x & ->).
  replace (l ++ (u ++ [y]) ++ [x]) with (((l ++ u) ++ [y]) ++ [x])
    by (rewrite <- !app_assoc; reflexivity).
  unfold strip_padding. rewrite !rev_snoc.
  destruct (Byte.eqb x EQUALS_SIGN).
  - destruct (Byte.eqb y EQUALS_SIGN).
    + rewrite !rev_involutive. reflexivity.
    + rewrite <- !rev_snoc, !rev_involutive, <- !app_assoc. reflexivity.
  - rewrite <- !app_assoc. reflexivity.
Qed.

Lemma strip_padding_app (t1 t2 : list byte) :
  (forall u, t1 <> u ++ [EQUALS_SIGN]) ->
  strip_padding (t1 ++ t2) = t1 ++ strip_padding t2.
Proof.
  intros Hne.
  assert (H1 : strip_padding t1 = t1).
  { unfold strip_padding. destruct (rev t1) as [|c r] eqn:E.
    - apply (f_equal (@rev byte)) in E. rewrite rev_involutive in E. subst t1. reflexivity.
    - destruct (Byte.eqb c EQUALS_SIGN) eqn:Ec; [|reflexivity].
      apply byte_eqb_eq in Ec. subst c.
      apply (f_equal (@rev byte)) in E. rewrite rev_involutive in E. cbn [rev] in E.
      destruct (Hne _ E). }
  destruct t2 as [|x [|y t2]].
  - rewrite !app_nil_r. exact H1.
  - destruct (Byte.eqb x EQUALS_SIGN) eqn:Ex.
    + apply byte_eqb_eq in Ex. subst x. change (strip_padding [EQUALS_SIGN]) with (@nil byte).
      rewrite app_nil_r. unfold strip_padding. rewrite rev_snoc.
      change (Byte.eqb EQUALS_SIGN EQUALS_SIGN) with true. cbn iota.
      destruct (rev t1) as [|d r'] eqn:E.
      * apply (f_equal (@rev byte)) in E. rewrite rev_involutive in E. subst t1. reflexivity.
      * destruct (Byte.eqb d EQUALS_SIGN) eqn:Ed.
        { apply byte_eqb_eq in Ed. subst d.
          apply (f_equal (@rev byte)) in E. rewrite rev_involutive in E. cbn [rev] in E.
          destruct (Hne _ E). }
        { rewrite <- E, rev_involutive. reflexivity. }
    + unfold strip_padding. rewrite rev_snoc. cbn [rev app]. rewrite Ex. reflexivity.
  - apply strip_padding_long. cbn [length]. lia.
Qed.

Lemma decode_text_app (t1 t2 : list byte) :
  size t1 mod 4 = 0 ->
  decode_text (t1 ++ t2)
  = (o1 <- decode_text t1 ;; o2 <- decode_text t2 ;; Returns (o1 ++ o2)).
Proof.
  induction t1 as [|c0|c0 c1|c0 c1 c2|c0 c1 c2 c3 t IH] using list_ind4; intros Ht.
  - cbn [app decode_text bind]. destruct (decode_text t2); reflexivity.
  - discriminate Ht.
  - discriminate Ht.
  - discriminate Ht.
  - cbn [app decode_text]. rewrite IH.
    2:{ rewrite size_cons4 in Ht. rewrite <- Ht.
        replace (size t + 4) with (size t + 1 * 4) by lia.
        rewrite Z.mod_add by lia. reflexivity. }
    destruct (value_of c0); cbn [bind]; try reflexivity.
    destruct (value_of c1); cbn [bind]; try reflexivity.
    destruct (value_of c2); cbn [bind]; try reflexivity.
    destruct (value_of c3); cbn [bind]; try reflexivity.
    destruct (decode_text t); cbn [bind]; try reflexivity.
    destruct (decode_text t2); cbn [bind]; try reflexivity.
Qed.

Section CodecPieces.
Context `{P : Platform}.

(** Decoding in pieces: when the first piece has a multiple of four
    characters and does not end in "=", the decoding of the whole is the
    decodings of the pieces, one after the other, and throws when one of
    them does. *)
Theorem base64_decode_app (t1 t2 : list byte) :
  size (t1 ++ t2) < 2 ^ 32 ->
  size t1 mod 4 = 0 ->
  (forall u, t1 <> u ++ [EQUALS_SIGN]) ->
  base64_decode (t1 ++ t2)
  = (o1 <- base64_decode t1 ;; o2 <- base64_decode t2 ;; Returns (o1 ++ o2)).
Proof.
  intros Hlt H4 Hne. rewrite size_app in Hlt.
  pose proof (size_nonneg t1). pose proof (size_nonneg t2).
  rewrite !base64_decode_decode_text.
  rewrite !visible_small by (rewrite ?size_app; lia).
  rewrite strip_padding_app by assumption.
  rewrite <- (app_nil_r t1) at 2. rewrite strip_padding_app by assumption.
  change (strip_padding []) with (@nil byte). rewrite app_nil_r.
  apply decode_text_app. assumption.
Qed.

(** Up to two "=" at the end of a text are padding and are left out: a
    text [t] that does not end in "=", followed by no, one or two "=",
    decodes as [t] alone does, which is group by group over all of [t];
    padding alone decodes to the empty string. *)
Theorem base64_decode_ignores_padding (t pad : list byte) :
  size (t ++ pad) < 2 ^ 32 ->
  (forall u, t <> u ++ [EQUALS_SIGN]) ->
  In pad [[]; [EQUALS_SIGN]; [EQUALS_SIGN; EQUALS_SIGN]] ->
  base64_decode (t ++ pad) = base64_decode t
  /\ base64_decode t = decode_text t
  /\ base64_decode pad = Returns [].
Proof.
  intros Hlt Hne Hpad. rewrite size_app in Hlt.
  pose proof (size_nonneg t). pose proof (size_nonneg pad).
  assert (Hs : strip_padding pad = []).
  { cbn in Hpad. destruct Hpad as [<-|[<-|[<-|[]]]]; reflexivity. }
  assert (Ht : strip_padding t = t).
  { rewrite <- (app_nil_r t) at 1. rewrite strip_padding_app by assumption.
    apply app_nil_r. }
  rewrite !base64_decode_decode_text.
  rewrite !visible_small by (rewrite ?size_app; lia).
  rewrite strip_padding_app by assumption.
  rewrite Hs, Ht, app_nil_r. repeat split.
Qed.

(** [base64_decode] sees of [s] only the characters its [unsigned int size]
    covers, the first [s.size() mod 2^32]; a string whose length is a
    multiple of 2^32 is decoded to the empty string. *)
Theorem base64_decode_truncates (s : list byte) :
  base64_decode s = base64_decode (visible s)
  /\ (size s mod 2 ^ 32 = 0 -> base64_decode s = Returns []).
Proof.
  split.
  - rewrite !base64_decode_decode_text.
    rewrite (visible_small (visible s)); [reflexivity|].
    rewrite size_visible. apply to_unsigned_int_range.
  - intros H. unfold base64_decode. rewrite decode_size_wrapped by exact H.
    reflexivity.
Qed.

End CodecPieces.

Lemma base64_decode_any_padding_witness :
  @base64_decode amd64
    (strip_padding ["T"; "W"; "E"; "="]%byte ++ [EQUALS_SIGN; EQUALS_SIGN])
  = Returns ["M"; "a"]%byte.
Proof.
  apply (@base64_decode_any_padding amd64 ["M"; "a"]%byte ["T"; "W"; "E"; "="]%byte).
  - vm_compute. reflexivity.
  - vm_compute. reflexivity.
  - right. right. left. reflexivity.
Defined.

Lemma base64_encode_injective_witness : ["M"; "a"]%byte = ["M"; "a"]%byte.
Proof.
  apply (@base64_encode_injective amd64). vm_compute. reflexivity.
Defined.

Lemma base64_encode_app_witness :
  @base64_encode amd64 (["M"; "a"; "n"]%byte ++ ["M"; "a"]%byte)
  = (ea <- @base64_encode amd64 ["M"; "a"; "n"]%byte ;;
     eb <- @base64_encode amd64 ["M"; "a"]%byte ;;
     Returns (ea ++ eb)).
Proof.
  apply (@base64_encode_app amd64). vm_compute. reflexivity.
Defined.

Lemma base64_decode_app_witness :
  @base64_decode amd64 (["T"; "W"; "F"; "u"]%byte ++ ["T"; "W"; "E"; "="]%byte)
  = (o1 <- @base64_decode amd64 ["T"; "W"; "F"; "u"]%byte ;;
     o2 <- @base64_decode amd64 ["T"; "W"; "E"; "="]%byte ;;
     Returns (o1 ++ o2)).
Proof.
  apply (@base64_decode_app amd64).
  - vm_compute. reflexivity.
  - vm_compute. reflexivity.
  - intros u E. apply (f_equal (@rev byte)) in E. rewrite rev_snoc in E.
    discriminate E.
Defined.

Lemma base64_decode_ignores_padding_witness :
  @base64_decode amd64 (["T"; "W"; "E"]%byte ++ [EQUALS_SIGN])
  = @base64_decode amd64 ["T"; "W"; "E"]%byte
  /\ @base64_decode amd64 ["T"; "W"; "E"]%byte = decode_text ["T"; "W"; "E"]%byte
  /\ @base64_decode amd64 [EQUALS_SIGN] = Returns [].
Proof.
  apply (@base64_decode_ignores_padding amd64).
  - vm_compute. reflexivity.
  - intros u E. apply (f_equal (@rev byte)) in E. rewrite rev_snoc in E.
    discriminate E.
  - right. left. reflexivity.
Defined.

Lemma base64_decode_accepts_witness :
  (exists o, @base64_decode amd64 ["T"; "W"; "F"; "u"; "="; "="]%byte = Returns o
     /\ size o = 3)
  /\ @base64_decode amd64 ["T"; "W"; "!"; "u"]%byte
     = Throws (dataflow_exception invalid_base64_character)
  /\ @base64_decode amd64 ["T"; "W"; "F"; "u"; "T"]%byte
     = Throws (dataflow_exception invalid_base64_character).
Proof.
  split; [|split].
  - apply (proj1 (@base64_decode_accepts amd64 ["T"; "W"; "F"; "u"; "="; "="]%byte)).
    + repeat (apply Forall_cons; [apply in_alphabet_check; vm_compute; reflexivity|]).
      apply Forall_nil.
    + vm_compute. discriminate.
  - apply (proj2 (@base64_decode_accepts amd64 ["T"; "W"; "!"; "u"]%byte)).
    left. exists "!"%byte. split; [|split].
    + right. right. left. reflexivity.
    + discriminate.
    + apply not_in_alphabet_check. vm_compute. reflexivity.
  - apply (proj2 (@base64_decode_accepts amd64 ["T"; "W"; "F"; "u"; "T"]%byte)).
    right. vm_compute. reflexivity.
Defined.

(** ** Outcomes of the submission methods *)

Section SubmissionOutcomes.
Context `{U : UrlSyntax}.

(** A submission that throws leaves the client as it was, with no handle
    registered; what it throws is InvalidRequest for a URL that is empty or
    malformed, and otherwise what the authentication handler threw. *)
Theorem submit_failure_leaves_client (this : Client) (s : submission)
    (e : exception) (this' : Client) :
  submit this s = (Throws e, this') ->
  this' = this
  /\ ((url_of (configuration_of s) = []
       \/ well_formed (url_of (configuration_of s)) = false)
      /\ e = InvalidRequest
      \/ exists handler,
           for_http (authentication_handler (configuration_of s)) = Some handler
           /\ handler (uri (configuration_of s)) = Throws e).
Proof.
  intros Hs.
  destruct (url_of (configuration_of s)) as [|c u] eqn:Eu.
  { rewrite submit_rejects in Hs by (left; exact Eu). injection Hs as <- <-.
    split; [reflexivity|]. left. split; [left|]; reflexivity. }
  destruct (well_formed (c :: u)) eqn:Ew.
  2:{ rewrite submit_rejects in Hs by (right; rewrite Eu; exact Ew).
      injection Hs as <- <-. split; [reflexivity|]. left. split; [right|]; reflexivity. }
  rewrite submit_accepts in Hs by (rewrite Eu; first [discriminate|exact Ew]).
  unfold apply_authentication_handler in Hs.
  destruct (for_http (authentication_handler (configuration_of s))) as [handler|].
  - destruct (handler (uri (configuration_of s))) as [cr|e'| |] eqn:Eh;
      cbn in Hs; try discriminate Hs.
    injection Hs as <- <-. split; [reflexivity|]. right. exists handler. split; [reflexivity|exact Eh].
  - cbn in Hs. discriminate Hs.
Qed.

(** A submission returns a request exactly when its URL is accepted and its
    authentication handler, if it has one, returns credentials. *)
Theorem submit_returns_iff (this : Client) (s : submission) :
  (exists r this', submit this s = (Returns r, this'))
  <-> url_of (configuration_of s) <> []
      /\ well_formed (url_of (configuration_of s)) = true
      /\ match for_http (authentication_handler (configuration_of s)) with
         | Some handler => exists credentials,
             handler (uri (configuration_of s)) = Returns credentials
         | None => True
         end.
Proof.
  split.
  - intros (r & this' & Hs). apply submit_returns in Hs.
    destruct Hs as (Hne & Hw & Ha & _). split; [exact Hne|]. split; [exact Hw|].
    unfold apply_authentication_handler in Ha.
    destruct (for_http (authentication_handler (configuration_of s))) as [handler|];
      [|exact I].
    destruct (handler (uri (configuration_of s))) as [cr| | |]; try discriminate Ha.
    exists cr. reflexivity.
  - intros (Hne & Hw & Hh). rewrite submit_accepts by assumption.
    unfold apply_authentication_handler.
    destruct (for_http (authentication_handler (configuration_of s))) as [handler|].
    + destruct Hh as [cr ->]. cbn. do 2 eexists. reflexivity.
    + cbn. do 2 eexists. reflexivity.
Qed.

(** What the handle of a request holds: the method of the call, the
    configured URI up to its first NUL, the headers of the configuration; a
    body only for post, a read callback with the declared size only for put;
    no credentials without an authentication handler. *)
Theorem submit_builds_handle (this : Client) (s : submission)
    (r : Request) (this' : Client) :
  submit this s = (Returns r, this') ->
  handle_method (request_handle r) = Some (method_of s)
  /\ handle_url (request_handle r) = Some (until_NUL (uri (configuration_of s)))
  /\ handle_header (request_handle r) = header (configuration_of s)
  /\ handle_post_data (request_handle r)
     = match s with
       | submit_post _ payload ct => Some (until_NUL payload, ct)
       | _ => None
       end
  /\ handle_on_read_data (request_handle r)
     = match s with
       | submit_put _ size => Some (put_read_lambda size, size)
       | _ => None
       end
  /\ (for_http (authentication_handler (configuration_of s)) = None ->
      handle_http_credentials (request_handle r) = None).
Proof.
  intros Hs. apply submit_returns in Hs. destruct Hs as (_ & _ & Ha & _).
  pose proof (authenticated_handle _ _ _ Ha) as (Hm & Hu & Hh & Hp & Hr & _).
  rewrite Hm, Hu, Hh, Hp, Hr.
  split; [reflexivity|].
  split; [unfold configured_handle, url_of; cbn [handle_url];
          rewrite c_string_at_c_str; reflexivity|].
  split; [reflexivity|]. split; [|split].
  - destruct s; try reflexivity.
    unfold configured_handle. cbn [handle_post_data].
    rewrite c_string_at_c_str. reflexivity.
  - destruct s; reflexivity.
  - intros Hn. unfold apply_authentication_handler in Ha. rewrite Hn in Ha.
    injection Ha as <-. reflexivity.
Qed.

End SubmissionOutcomes.

Lemma submit_failure_leaves_client_witness :
  snd (head new_Client (with_handler refusing_handler)) = new_Client.
Proof.
  destruct (head new_Client (with_handler refusing_handler)) as [o this'] eqn:E.
  destruct o as [r|e| |]; try (vm_compute in E; discriminate E).
  exact (proj1 (submit_failure_leaves_client new_Client
                  (submit_head (with_handler refusing_handler)) e this' E)).
Defined.

Lemma submit_builds_handle_witness :
  exists r this',
    get new_Client example_configuration = (Returns r, this')
    /\ handle_method (request_handle r) = Some Method_get
    /\ handle_post_data (request_handle r) = None.
Proof.
  destruct (get new_Client example_configuration) as [[r| | |] this'] eqn:E;
    try (vm_compute in E; discriminate E).
  exists r, this'. split; [reflexivity|].
  pose proof (submit_builds_handle new_Client (submit_get example_configuration)
                r this' E) as H.
  split; [exact (proj1 H)|exact (proj1 (proj2 (proj2 (proj2 H))))].
Defined.
